(** * icechunk.xarray: writing an Xarray dataset into an Icechunk store

    A shallow embedding of [icechunk-python/python/icechunk/xarray.py]:
    the [LazyArrayWriter] that splits write tasks into eager and deferred
    ones, the [XarrayDatasetWriter] state machine
    ([write_metadata], [write_eager], [write_lazy]), [merge_stores] and
    the entry point [to_icechunk].

    Python objects that are shared and mutated in place (the store handles)
    live in an explicit object store, the [World]; every method is a
    function from the world (and from [self]) to an outcome and a new
    world. *)

From stdpp Require Import gmap strings list fin_maps.

Open Scope string_scope.
Open Scope list_scope.

(** ** Exceptions and outcomes *)

(** A Python exception: its class name and its message. *)
Record exn := Exn { exn_class : string; exn_msg : string }.

Definition ValueError (msg : string) : exn := Exn "ValueError" msg.
Definition AttributeError (msg : string) : exn := Exn "AttributeError" msg.

(** Model only: a handle that denotes no object of the world. No Python
    program can produce one; worlds built by the operations below never
    contain one. *)
Definition dangling : exn := Exn "ReferenceError" "handle denotes no object".

(** What a call does: return a value, raise, or never return. *)
Inductive outcome (A : Type) : Type :=
  | Ret (a : A)
  | Raise (e : exn)
  | Diverge.
Arguments Ret {A} a.
Arguments Raise {A} e.
Arguments Diverge {A}.

(** ** Slices, regions and indices *)

(** [slice(start, stop, step)], each part an int or [None]. *)
Record slice := Slice { start : option Z; stop : option Z; step : option Z }.

(** The [region] argument of a write task: [None] or a tuple of slices. *)
Definition Region := option (list slice).

(** What is put between the brackets of [target[...] = source]. *)
Inductive index :=
  | Ellipsis
  | Tuple (sl : list slice).

(** [region or ...]: Python's [or] yields its left operand when that is
    truthy; [None] and the empty tuple are falsy. *)
Definition region_or_ellipsis (region : Region) : index :=
  match region with
  | Some (s :: sl) => Tuple (s :: sl)
  | Some [] => Ellipsis
  | None => Ellipsis
  end.

(** The axes an index restricts, in order: basic indexing leaves every
    axis without a slice whole, so the empty tuple and [...] both address
    the whole array. *)
Definition restricted_axes (i : index) : list slice :=
  match i with
  | Ellipsis => []
  | Tuple sl => sl
  end.

(** ** The collaborators

    [IcechunkStore] (a compiled extension class), zarr arrays, dask and
    xarray are not part of this file; their operations are the fields of
    this interface. A call that mutates a store and can raise returns the
    exception, if it raised, and the state it left the store in. *)

Abbreviation handle := nat.

Class External := {
  (** the state of one [IcechunkStore] object *)
  StoreState : Type;
  (** a serialised change-set, the result of [change_set_bytes()] *)
  ChangeSet : Type;
  store_merge : StoreState → ChangeSet → option exn * StoreState;
  change_set_bytes : StoreState → ChangeSet;
  (** the source of a write task: an in-memory array or a dask collection *)
  Source : Type;
  (** [dask.base.is_dask_collection] *)
  is_dask_collection : Source → bool;
  (** [array[index] = source] for the zarr array at [path] of a store *)
  array_setitem : StoreState → string → index → Source → option exn * StoreState;
  (** one chunk of a deferred write, as scheduled by [dask.array.store] *)
  ChunkTask : Type;
  chunk_tasks : Source → string → Region → list ChunkTask;
  (** computing the chunk and writing it into the task's own store *)
  run_chunk_task : ChunkTask → StoreState → exn + StoreState;
  (** dask's scheduler: [true] when it runs the tasks in the process of
      the caller (the threaded scheduler, dask's default, and the
      synchronous one), on the very arrays they were given; [false] when
      it runs them elsewhere, on unpickled copies of the arrays *)
  in_process : bool;
  (** [dask.config.get("split_every")] *)
  default_split_every : Z;
  (** an [xarray.Dataset] and the keyword arguments of [write_metadata] *)
  Dataset : Type;
  MetadataArgs : Type;
  (** [_validate_dataset_names], [_choose_default_mode],
      [ZarrStore.open_group], [_validate_encoding] and
      [_validate_and_autodetect_region]: whether one of them raised, and
      the state they leave the store in *)
  open_and_validate :
    Dataset → MetadataArgs → StoreState → (exn + unit) * StoreState;
  (** [dump_to_store]: the variables it handed to the writer's [add], in
      order, as source, array path and region; the exception if it raised;
      the state it leaves the store in *)
  dump_to_store :
    Dataset → MetadataArgs → StoreState →
    list (Source * string * Region) * option exn * StoreState;
}.

Section Writer.
Context `{External}.

(** [has_dask], the module-level flag: [True] when [import dask]
    succeeded as the module was loaded. *)
Variable has_dask : bool.

(** ** The world of store objects *)

(** An [IcechunkStore] object: its state, and the arguments of the
    [merge] calls it has received so far (a ghost log). *)
Record StoreObj := { obj_state : StoreState; merge_calls : list ChangeSet }.

(** The objects in existence; a handle is an index into the world. *)
Abbreviation World := (list StoreObj).

(** A [zarr.Array]: the store it belongs to and its path in it. *)
Record Array := { array_store : handle; array_path : string }.

(** Computations on the world. *)
Definition M (A : Type) : Type := World → outcome A * World.

Definition ret {A} (a : A) : M A := λ W, (Ret a, W).
Definition raise {A} (e : exn) : M A := λ W, (Raise e, W).
Definition bind {A B} (c : M A) (k : A → M B) : M B := λ W,
  match c W with
  | (Ret a, W') => k a W'
  | (Raise e, W') => (Raise e, W')
  | (Diverge, W') => (Diverge, W')
  end.

Notation "x '<-' c ';;' k" := (bind c (λ x, k))
  (at level 100, c at next level, right associativity).
Notation "c ';;;' k" := (bind c (λ _, k))
  (at level 100, right associativity).

(** [store.change_set_bytes()] *)
Definition call_change_set_bytes (h : handle) : M ChangeSet := λ W,
  match W !! h with
  | Some o => (Ret (change_set_bytes (obj_state o)), W)
  | None => (Raise dangling, W)
  end.

(** [store.merge(b)]: the call is logged, then the store merges. *)
Definition call_merge (h : handle) (b : ChangeSet) : M unit := λ W,
  match W !! h with
  | Some o =>
      match store_merge (obj_state o) b with
      | (err, s) =>
          let W' :=
            <[h := {| obj_state := s; merge_calls := merge_calls o ++ [b] |}]> W in
          match err with
          | None => (Ret tt, W')
          | Some e => (Raise e, W')
          end
      end
  | None => (Raise dangling, W)
  end.

(** [target[index] = source] *)
Definition call_setitem (target : Array) (i : index) (source : Source) : M unit :=
  λ W,
  match W !! array_store target with
  | Some o =>
      match array_setitem (obj_state o) (array_path target) i source with
      | (err, s) =>
          let W' :=
            <[array_store target :=
                {| obj_state := s; merge_calls := merge_calls o |}]> W in
          match err with
          | None => (Ret tt, W')
          | Some e => (Raise e, W')
          end
      end
  | None => (Raise dangling, W)
  end.

(** ** Module-level functions *)

Definition extract_stores (zarray : Array) : handle := array_store zarray.

(** The loop of [merge_stores]. *)
Fixpoint merge_rest (store : handle) (rest : list handle) : M unit :=
  match rest with
  | [] => ret tt
  | other :: rest' =>
      b <- call_change_set_bytes other ;;
      call_merge store b ;;;
      merge_rest store rest'
  end.

(** [store, *rest = stores] needs at least one store. *)
Definition merge_stores (stores : list handle) : M handle :=
  match stores with
  | [] => raise (ValueError "not enough values to unpack (expected at least 1, got 0)")
  | store :: rest => merge_rest store rest ;;; ret store
  end.

Definition is_chunked_array (x : Source) : bool :=
  if has_dask then is_dask_collection x else false.

(** ** LazyArrayWriter *)

(** [sources], [targets] and [regions] are inherited from xarray's
    [ArrayWriter]. *)
Record LazyArrayWriter := {
  sources : list Source;
  targets : list Array;
  regions : list Region;
  eager_sources : list Source;
  eager_targets : list Array;
  eager_regions : list Region;
}.

(** [LazyArrayWriter()] *)
Definition LazyArrayWriter_init : LazyArrayWriter :=
  {| sources := []; targets := []; regions := [];
     eager_sources := []; eager_targets := []; eager_regions := [] |}.

Definition add (self : LazyArrayWriter)
    (source : Source) (target : Array) (region : Region) : LazyArrayWriter :=
  if is_chunked_array source then
    {| sources := sources self ++ [source];
       targets := targets self ++ [target];
       regions := regions self ++ [region];
       eager_sources := eager_sources self;
       eager_targets := eager_targets self;
       eager_regions := eager_regions self |}
  else
    {| sources := sources self;
       targets := targets self;
       regions := regions self;
       eager_sources := eager_sources self ++ [source];
       eager_targets := eager_targets self ++ [target];
       eager_regions := eager_regions self ++ [region] |}.

(** The loop of [write_eager] over [zip(..., strict=True)]: the three
    iterators advance together, and the first one found exhausted while
    another is not raises [ValueError]. *)
Fixpoint write_eager_loop (ss : list Source) (ts : list Array) (rs : list Region)
    : M unit :=
  match ss, ts, rs with
  | [], [], [] => ret tt
  | source :: ss', target :: ts', region :: rs' =>
      call_setitem target (region_or_ellipsis region) source ;;;
      write_eager_loop ss' ts' rs'
  | [], _ :: _, _ => raise (ValueError "zip() argument 2 is longer than argument 1")
  | [], [], _ :: _ => raise (ValueError "zip() argument 3 is longer than arguments 1-2")
  | _ :: _, [], _ => raise (ValueError "zip() argument 2 is shorter than argument 1")
  | _ :: _, _ :: _, [] =>
      raise (ValueError "zip() argument 3 is shorter than arguments 1-2")
  end.

(** The eager lists are reset only when the loop has run to its end. *)
Definition LazyArrayWriter_write_eager (self : LazyArrayWriter)
    : World → outcome unit * LazyArrayWriter * World := λ W,
  match write_eager_loop (eager_sources self) (eager_targets self)
          (eager_regions self) W with
  | (Ret _, W') =>
      (Ret tt,
       {| sources := sources self; targets := targets self;
          regions := regions self;
          eager_sources := []; eager_targets := []; eager_regions := [] |},
       W')
  | (Raise e, W') => (Raise e, self, W')
  | (Diverge, W') => (Diverge, self, W')
  end.

(** ** Deferred writes *)

(** One chunk of the delayed store that [sync(compute=False)] returns: the
    scheduled task and the zarr array it writes to. *)
Record DelayedChunk := { dc_task : ChunkTask; dc_target : Array }.

(** [dask.array.store(sources, targets, regions=regions, compute=False,
    return_stored=True, load_stored=False)]: the write of every source is
    split into its chunk tasks; the three lists must agree in length. *)
Fixpoint delayed_store (ss : list Source) (ts : list Array) (rs : list Region)
    : exn + list DelayedChunk :=
  match ss, ts, rs with
  | [], [], [] => inr []
  | source :: ss', target :: ts', region :: rs' =>
      match delayed_store ss' ts' rs' with
      | inr ds =>
          inr (map (λ t, {| dc_task := t; dc_target := target |})
                 (chunk_tasks source (array_path target) region) ++ ds)
      | inl e => inl e
      end
  | _, _, _ => inl (ValueError "Different number of sources, targets and regions")
  end.

(** [ArrayWriter.sync(compute=False, ...)], inherited from xarray: it
    hands the deferred lists to the chunk manager's [store] and resets
    them. The caller has checked that [sources] is not empty. *)
Definition sync (self : LazyArrayWriter)
    : exn + list DelayedChunk * LazyArrayWriter :=
  match delayed_store (sources self) (targets self) (regions self) with
  | inr stored =>
      inr (stored,
           {| sources := []; targets := []; regions := [];
              eager_sources := eager_sources self;
              eager_targets := eager_targets self;
              eager_regions := eager_regions self |})
  | inl e => inl e
  end.

(** Modelled from the spec: [Store.clone()] of the store interface (§6),
    a new handle that starts from the state of [h] and is independent of
    it; it is what unpickling a store in another process makes. The store
    class is not under src/. *)
Definition call_clone (h : handle) : M handle := λ W,
  match W !! h with
  | Some o => (Ret (length W), W ++ [{| obj_state := obj_state o; merge_calls := [] |}])
  | None => (Raise dangling, W)
  end.

(** The task's write into the store [h]. *)
Definition call_run_chunk_task (t : ChunkTask) (h : handle) : M unit := λ W,
  match W !! h with
  | Some o =>
      match run_chunk_task t (obj_state o) with
      | inr s => (Ret tt, <[h := {| obj_state := s; merge_calls := merge_calls o |}]> W)
      | inl e => (Raise e, W)
      end
  | None => (Raise dangling, W)
  end.

(** The execution of one chunk task, which dask schedules: the task
    computes its value, writes it into its target array and yields that
    array ([return_stored=True], [load_stored=False]); a failure of the
    computation or of the write fails the task. Nothing in the module
    derives a store for the task. In process the target is the array that
    [add] was given, an array of [self.store]; out of process it is an
    unpickled copy, bound to a store of its own (§4.3). *)
Definition run_delayed (d : DelayedChunk) : M Array :=
  if in_process then
    call_run_chunk_task (dc_task d) (array_store (dc_target d)) ;;;
    ret (dc_target d)
  else
    h <- call_clone (array_store (dc_target d)) ;;
    call_run_chunk_task (dc_task d) h ;;;
    ret {| array_store := h; array_path := array_path (dc_target d) |}.

(** Results in input order, or the first failure (the parallel task
    runner of §6). *)
Fixpoint mapM {A B : Type} (f : A → M B) (l : list A) : M (list B) :=
  match l with
  | [] => ret []
  | a :: l' => b <- f a ;; bs <- mapM f l' ;; ret (b :: bs)
  end.

(** Contiguous groups of [k] items, the last one possibly shorter;
    [n] bounds the number of groups. *)
Fixpoint chunks_upto {T : Type} (n k : nat) (l : list T) : list (list T) :=
  match n, l with
  | S n', _ :: _ => take k l :: chunks_upto n' k (drop k l)
  | _, _ => []
  end.

Definition chunks {T : Type} (k : nat) (l : list T) : list (list T) :=
  chunks_upto (length l) k l.

(** Modelled from the spec: the tree reducer (§4.2), part of
    [icechunk/dask.py], which is not under src/. A single item is
    returned as it is; otherwise the items are partitioned into contiguous
    groups of at most [k], each group is combined by one call of
    [combine], and the reduction recurses on the group values. [fuel]
    bounds the number of levels; no partition into groups of at most 0
    items makes progress. *)
Fixpoint tree_reduce {T : Type} (fuel : nat) (combine : list T → M T)
    (k : nat) (items : list T) : M T :=
  match items with
  | [x] => ret x
  | _ =>
      match fuel, k with
      | S fuel', S _ =>
          level <- mapM combine (chunks k items) ;;
          tree_reduce fuel' combine k level
      | _, _ => λ W, (Diverge, W)
      end
  end.

(** Modelled from the spec: [stateful_store_reduce] of [icechunk/dask.py],
    not under src/, called with [compute=True]: the chunk tasks are
    executed (§4.3), [chunk] extracts a store from each stored array, and
    the stores are tree-reduced with [aggregate] and branching factor
    [split_every] (§4.2, §4.4). The [prefix] names graph keys only. *)
Definition stateful_store_reduce (stored_arrays : list DelayedChunk)
    (chunk : Array → handle) (aggregate : list handle → M handle)
    (split_every : option Z) : M handle :=
  arrays <- mapM run_delayed stored_arrays ;;
  let items := map chunk arrays in
  let k := Z.to_nat (default default_split_every split_every) in
  tree_reduce (length items) aggregate k items.

(** ** XarrayDatasetWriter *)

(** The value passed as [store]: an [IcechunkStore] object or an object
    of another type, of which only [repr(type(store))] is looked at. *)
Inductive PyObject :=
  | IcechunkStoreRef (h : handle)
  | OtherObject (type_repr : string).

(** The dataclass. [writer] has no default and is not an [__init__]
    argument: the attribute does not exist until [write_metadata] sets it.
    ([xarray_store] and [mode] are set by [write_metadata] and never read
    again.) *)
Record XarrayDatasetWriter := {
  dataset : Dataset;
  store : handle;
  _initialized : bool;
  writer : option LazyArrayWriter;
}.

(** [XarrayDatasetWriter(dataset, store=store, _initialized=...)] with its
    [__post_init__]. *)
Definition XarrayDatasetWriter_new (dataset : Dataset) (store : PyObject)
    (_initialized : bool) : exn + XarrayDatasetWriter :=
  match store with
  | IcechunkStoreRef h =>
      inr {| dataset := dataset; store := h;
             _initialized := _initialized; writer := None |}
  | OtherObject type_repr =>
      inl (ValueError ("Please pass in an IcechunkStore. Recevied "
                         +:+ type_repr +:+ " instead."))
  end.

Definition not_initialized : exn := ValueError "Please call `write_metadata` first.".

Definition no_writer : exn :=
  AttributeError "'XarrayDatasetWriter' object has no attribute 'writer'".

Definition set_state (s : StoreState) (o : StoreObj) : StoreObj :=
  {| obj_state := s; merge_calls := merge_calls o |}.

(** The [add] calls that [dump_to_store] makes: the target arrays are
    arrays of [self.store]. *)
Definition add_variables (store : handle) (vars : list (Source * string * Region))
    (w : LazyArrayWriter) : LazyArrayWriter :=
  foldl (λ w v,
           add w v.1.1 {| array_store := store; array_path := v.1.2 |} v.2)
        w vars.

Definition write_metadata (self : XarrayDatasetWriter) (args : MetadataArgs)
    : World → outcome unit * XarrayDatasetWriter * World := λ W,
  match W !! store self with
  | Some o =>
      match open_and_validate (dataset self) args (obj_state o) with
      | (inr _, s1) =>
          match dump_to_store (dataset self) args s1 with
          | (vars, err, s2) =>
              let w := add_variables (store self) vars LazyArrayWriter_init in
              let W' := <[store self := set_state s2 o]> W in
              match err with
              | None =>
                  (Ret tt,
                   {| dataset := dataset self; store := store self;
                      _initialized := true; writer := Some w |},
                   W')
              | Some e =>
                  (Raise e,
                   {| dataset := dataset self; store := store self;
                      _initialized := _initialized self; writer := Some w |},
                   W')
              end
          end
      | (inl e, s1) => (Raise e, self, <[store self := set_state s1 o]> W)
      end
  | None => (Raise dangling, self, W)
  end.

Definition set_writer (self : XarrayDatasetWriter) (w : LazyArrayWriter)
    : XarrayDatasetWriter :=
  {| dataset := dataset self; store := store self;
     _initialized := _initialized self; writer := Some w |}.

Definition write_eager (self : XarrayDatasetWriter)
    : World → outcome unit * XarrayDatasetWriter * World := λ W,
  if negb (_initialized self) then (Raise not_initialized, self, W)
  else
    match writer self with
    | Some w =>
        match LazyArrayWriter_write_eager w W with
        | (r, w', W') => (r, set_writer self w', W')
        end
    | None => (Raise no_writer, self, W)
    end.

(** [chunkmanager_store_kwargs] only reaches the chunk manager and is
    left out. *)
Definition write_lazy (self : XarrayDatasetWriter) (split_every : option Z)
    : World → outcome unit * XarrayDatasetWriter * World := λ W,
  if negb (_initialized self) then (Raise not_initialized, self, W)
  else
    match writer self with
    | Some w =>
        match sources w with
        | [] => (Ret tt, self, W)
        | _ :: _ =>
            match sync w with
            | inr (stored_arrays, w') =>
                match stateful_store_reduce stored_arrays extract_stores
                        merge_stores split_every W with
                | (Ret merged_store, W1) =>
                    match (b <- call_change_set_bytes merged_store ;;
                           call_merge (store self) b) W1 with
                    | (r, W2) => (r, set_writer self w', W2)
                    end
                | (Raise e, W1) => (Raise e, set_writer self w', W1)
                | (Diverge, W1) => (Diverge, set_writer self w', W1)
                end
            | inl e => (Raise e, self, W)
            end
        end
    | None => (Raise no_writer, self, W)
    end.

(** [to_icechunk]: its [split_every] is not handed on to [write_lazy]. *)
Definition to_icechunk (dataset : Dataset) (store : PyObject)
    (args : MetadataArgs) (split_every : option Z) : M unit := λ W,
  match XarrayDatasetWriter_new dataset store false with
  | inr writer0 =>
      match write_metadata writer0 args W with
      | (Ret _, writer1, W1) =>
          match write_eager writer1 W1 with
          | (Ret _, writer2, W2) =>
              match write_lazy writer2 None W2 with
              | (r, _, W3) => (r, W3)
              end
          | (Raise e, _, W2) => (Raise e, W2)
          | (Diverge, _, W2) => (Diverge, W2)
          end
      | (Raise e, _, W1) => (Raise e, W1)
      | (Diverge, _, W1) => (Diverge, W1)
      end
  | inl e => (Raise e, W)
  end.

End Writer.

Abbreviation World := (list StoreObj).

Arguments not_initialized : simpl never.
Arguments no_writer : simpl never.

(** ** Write tasks as triples *)

Section Tasks.
Context `{External}.
Variable has_dask : bool.

(** A write task: (source, target, region), the arguments of one [add]. *)
Definition task : Type := Source * Array * Region.

Definition tasks_of (ss : list Source) (ts : list Array) (rs : list Region)
    : list task :=
  zip (zip ss ts) rs.

Definition deferred_tasks (w : LazyArrayWriter) : list task :=
  tasks_of (sources w) (targets w) (regions w).

Definition eager_tasks (w : LazyArrayWriter) : list task :=
  tasks_of (eager_sources w) (eager_targets w) (eager_regions w).

(** The three lists advance together. *)
Definition lockstep {A B C : Type} (xs : list A) (ys : list B) (zs : list C) : Prop :=
  length xs = length ys ∧ length ys = length zs.

(** A sequence of [add] calls. *)
Definition add_all (tasks : list task) (w : LazyArrayWriter) : LazyArrayWriter :=
  foldl (λ w t, add has_dask w t.1.1 t.1.2 t.2) w tasks.

Definition chunked (t : task) : bool := is_chunked_array has_dask t.1.1.

(** The writes of the spec's eager phase: every task in turn, its source
    written into its target, in its sub-region when it has one. *)
Fixpoint write_each (tasks : list task) : M unit :=
  match tasks with
  | [] => ret tt
  | t :: tasks' =>
      bind (call_setitem t.1.2 (region_or_ellipsis t.2) t.1.1)
           (λ _, write_each tasks')
  end.

(** The chunks that the deferred tasks are split into. *)
Definition delayed_of (t : task) : list DelayedChunk :=
  map (λ c, {| dc_task := c; dc_target := t.1.2 |})
      (chunk_tasks t.1.1 (array_path t.1.2) t.2).

(** The stores of the targets of the chunks. *)
Definition target_stores (ds : list DelayedChunk) : list handle :=
  map (λ d, array_store (dc_target d)) ds.

(** The eager lists, emptied. *)
Definition drained (w : LazyArrayWriter) : LazyArrayWriter :=
  {| sources := sources w; targets := targets w; regions := regions w;
     eager_sources := []; eager_targets := []; eager_regions := [] |}.

(** The deferred lists, emptied. *)
Definition synced (w : LazyArrayWriter) : LazyArrayWriter :=
  {| sources := []; targets := []; regions := [];
     eager_sources := eager_sources w; eager_targets := eager_targets w;
     eager_regions := eager_regions w |}.

(** How [write_eager] ends, given how its loop ended. *)
Definition finish_eager (w : LazyArrayWriter) (r : outcome unit * World)
    : outcome unit * LazyArrayWriter * World :=
  match r with
  | (Ret _, W') => (Ret tt, drained w, W')
  | (Raise e, W') => (Raise e, w, W')
  | (Diverge, W') => (Diverge, w, W')
  end.

(** The writers on which no [write_metadata] call has completed yet: a
    writer as the constructor returns it (with the default
    [_initialized]), and whatever calls that raise, and calls of the two
    write phases, make of it. *)
Inductive undeclared : XarrayDatasetWriter → Prop :=
  | undeclared_new ds st self :
      XarrayDatasetWriter_new ds st false = inr self → undeclared self
  | undeclared_metadata self args W r self' W' :
      undeclared self →
      write_metadata has_dask self args W = (r, self', W') →
      r ≠ Ret tt →
      undeclared self'
  | undeclared_eager self W r self' W' :
      undeclared self → write_eager self W = (r, self', W') → undeclared self'
  | undeclared_lazy self se W r self' W' :
      undeclared self → write_lazy self se W = (r, self', W') → undeclared self'.

(** A chunk task succeeds, or fails with [e], when it is run on a store
    derived from the store of its target as that store is in [W]. *)
Definition succeeds (W : World) (d : DelayedChunk) : Prop :=
  ∃ o s, W !! array_store (dc_target d) = Some o ∧
         run_chunk_task (dc_task d) (obj_state o) = inr s.

Definition fails (W : World) (d : DelayedChunk) (e : exn) : Prop :=
  ∃ o, W !! array_store (dc_target d) = Some o ∧
       run_chunk_task (dc_task d) (obj_state o) = inl e.

End Tasks.

(** ** What the methods can make of a writer *)

Section Reach.
Context `{External}.
Variable has_dask : bool.

(** What [change_set_bytes()] yields on the store that [h] denotes. *)
Definition bytes_of (W : World) (h : handle) : option ChangeSet :=
  (λ o, change_set_bytes (obj_state o)) <$> W !! h.

(** The [merge] calls of [merge_stores] seen from the first store: the
    change-sets are merged in order until a merge raises. The result is
    the exception, if any, the state the store is left in, and the
    change-sets that were passed to [merge]. *)
Fixpoint merge_seq (s : StoreState) (bs : list ChangeSet)
    : option exn * StoreState * list ChangeSet :=
  match bs with
  | [] => (None, s, [])
  | b :: bs' =>
      match store_merge s b with
      | (None, s') =>
          match merge_seq s' bs' with
          | (err, s'', called) => (err, s'', b :: called)
          end
      | (Some e, s') => (Some e, s', [b])
      end
  end.

(** The [LazyArrayWriter] objects that the methods of the class produce
    from a new one. *)
Inductive built : LazyArrayWriter → Prop :=
  | built_init : built LazyArrayWriter_init
  | built_add w source target region :
      built w → built (add has_dask w source target region)
  | built_write_eager w W r w' W' :
      built w → LazyArrayWriter_write_eager w W = (r, w', W') → built w'
  | built_sync w stored w' :
      built w → sync w = inr (stored, w') → built w'.

(** The [XarrayDatasetWriter] objects that the constructor, called with
    the default [_initialized], and the three methods produce. *)
Inductive reached : XarrayDatasetWriter → Prop :=
  | reached_new ds st self :
      XarrayDatasetWriter_new ds st false = inr self → reached self
  | reached_metadata self args W r self' W' :
      reached self →
      write_metadata has_dask self args W = (r, self', W') → reached self'
  | reached_eager self W r self' W' :
      reached self → write_eager self W = (r, self', W') → reached self'
  | reached_lazy self se W r self' W' :
      reached self → write_lazy self se W = (r, self', W') → reached self'.

(** The variables that [dump_to_store] hands over, as write tasks on the
    arrays of [store]. *)
Definition tasks_in (store : handle) (vars : list (Source * string * Region))
    : list task :=
  map (λ v, (v.1.1, {| array_store := store; array_path := v.1.2 |}, v.2)) vars.

End Reach.

(** * A store of change-sets

    The store class itself is a compiled extension and not under src/;
    this is the store the spec describes, used to state the laws of
    merging and to run the writer on concrete datasets. *)

Module ChangeSets.

(** A chunk location: an array path and a chunk number. *)
Abbreviation Location := (string * nat)%type.

(** Modelled from the spec: the change-set of a store handle (§3), kept by
    the store class, which is not under src/: the pending mutations of the
    handle, as the value written at every location written. The empty map
    is the empty change-set. *)
Abbreviation Changes := (gmap Location Z).

(** Modelled from the spec: the merge of the store class (§4.1), not under
    src/: the incoming change-set is applied on top of the pending one,
    so that where both write a location the incoming value stands. *)
Definition merge (pending incoming : Changes) : Changes := incoming ∪ pending.

(** A source: a dask collection or an in-memory array, with the value of
    each of its chunks; [None] is a chunk whose computation raises. *)
Record source := { lazy : bool; values : list (option Z) }.

Definition failed_chunk : exn := Exn "RuntimeError" "chunk computation failed".

(** One chunk task: where it writes and the value it computes. *)
Record chunk_task := { ct_at : Location; ct_value : option Z }.

Definition run (t : chunk_task) (st : Changes) : exn + Changes :=
  match ct_value t with
  | Some v => inr (<[ct_at t := v]> st)
  | None => inl failed_chunk
  end.

Definition tasks_from (i : nat) (path : string) (vs : list (option Z))
    : list chunk_task :=
  imap (λ j v, {| ct_at := (path, i + j); ct_value := v |}) vs.

(** An eager write stores the chunks of the source one after the other,
    whatever the index; when it raises, the chunks before the failing one
    stay written. *)
Fixpoint write_from (i : nat) (path : string) (vs : list (option Z))
    (st : Changes) : option exn * Changes :=
  match vs with
  | [] => (None, st)
  | Some v :: vs' => write_from (S i) path vs' (<[(path, i) := v]> st)
  | None :: _ => (Some failed_chunk, st)
  end.

Definition write_all (path : string) (vs : list (option Z)) (st : Changes)
    : option exn * Changes :=
  write_from 0 path vs st.

(** A dataset is the list of its variables; metadata is not tracked. The
    chunk tasks run out of process. *)
Definition store_model : External :=
  {| StoreState := Changes;
     ChangeSet := Changes;
     store_merge := λ st b, (None, merge st b);
     change_set_bytes := λ st, st;
     Source := source;
     is_dask_collection := lazy;
     array_setitem := λ st path _ src, write_all path (values src) st;
     ChunkTask := chunk_task;
     chunk_tasks := λ src path _, tasks_from 0 path (values src);
     run_chunk_task := run;
     in_process := false;
     default_split_every := 4;
     Dataset := list (source * string * Region);
     MetadataArgs := unit;
     open_and_validate := λ _ _ st, (inr tt, st);
     dump_to_store := λ ds _ st, (ds, None, st) |}.

(** The same store with the chunk tasks run in process. *)
Definition threaded_model : External :=
  {| StoreState := Changes;
     ChangeSet := Changes;
     store_merge := λ st b, (None, merge st b);
     change_set_bytes := λ st, st;
     Source := source;
     is_dask_collection := lazy;
     array_setitem := λ st path _ src, write_all path (values src) st;
     ChunkTask := chunk_task;
     chunk_tasks := λ src path _, tasks_from 0 path (values src);
     run_chunk_task := run;
     in_process := true;
     default_split_every := 4;
     Dataset := list (source * string * Region);
     MetadataArgs := unit;
     open_and_validate := λ _ _ st, (inr tt, st);
     dump_to_store := λ ds _ st, (ds, None, st) |}.

(** The pending change-set of the object a handle denotes. *)
Definition pending (W : list (@StoreObj store_model)) (h : handle) : option Changes :=
  @obj_state store_model <$> W !! h.

#[local] Existing Instance store_model.

(** The same, empty for a handle that denotes no store. *)
Definition cs (W : World) (h : handle) : Changes := default ∅ (pending W h).

(** The change-sets of a sequence merged in order into the empty one. *)
Definition merge_all (ms : list Changes) : Changes := foldl merge ∅ ms.

(** No two change-sets of the list write one location. *)
Fixpoint pairwise_disjoint (ms : list Changes) : Prop :=
  match ms with
  | [] => True
  | m :: ms' => Forall (λ m', m ##ₘ m') ms' ∧ pairwise_disjoint ms'
  end.

(** A handle that denotes a store of the world. *)
Definition valid (W : World) (h : handle) : Prop := (h < length W)%nat.

End ChangeSets.

(** * Concrete datasets *)

Module Scenario.
Import ChangeSets.

#[local] Existing Instance store_model.

(** A world with the canonical store only, nothing pending. *)
Definition W0 : World := [{| obj_state := ∅; merge_calls := [] |}].

(** Two in-memory variables and a dask-backed one of six chunks. *)
Definition lat : source := {| lazy := false; values := [Some 10%Z] |}.
Definition lon : source := {| lazy := false; values := [Some 20%Z; Some 21%Z] |}.
Definition temp : source :=
  {| lazy := true;
     values := [Some 1%Z; Some 2%Z; Some 3%Z; Some 4%Z; Some 5%Z; Some 6%Z] |}.

(** A dask-backed variable whose second chunk cannot be computed. *)
Definition broken : source :=
  {| lazy := true; values := [Some 1%Z; None; Some 3%Z] |}.

Definition ds : list (source * string * Region) :=
  [(lat, "lat", None); (temp, "temp", None); (lon, "lon", Some [])].

Definition in_memory : list (source * string * Region) :=
  [(lat, "lat", None); (lon, "lon", Some [])].

Definition fresh (d : list (source * string * Region)) : XarrayDatasetWriter :=
  {| dataset := d; store := 0; _initialized := false; writer := None |}.

(** The writer and the world after [write_metadata]. *)
Definition declared (d : list (source * string * Region)) : XarrayDatasetWriter :=
  (write_metadata true (fresh d) tt W0).1.2.

Definition W1 (d : list (source * string * Region)) : World :=
  (write_metadata true (fresh d) tt W0).2.

(** And after [write_eager]. *)
Definition eager_done (d : list (source * string * Region)) : XarrayDatasetWriter :=
  (write_eager (declared d) (W1 d)).1.2.

Definition W2 (d : list (source * string * Region)) : World :=
  (write_eager (declared d) (W1 d)).2.

(** The deferred lists hold [broken] alone; its chunks as [sync] hands
    them on. *)
Definition broken_writer : LazyArrayWriter :=
  {| sources := [broken];
     targets := [{| array_store := 0; array_path := "temp" |}];
     regions := [None];
     eager_sources := []; eager_targets := []; eager_regions := [] |}.

Definition broken_self : XarrayDatasetWriter :=
  {| dataset := [(broken, "temp", None)]; store := 0; _initialized := true;
     writer := Some broken_writer |}.

Definition broken_chunk (i : nat) (v : option Z) : DelayedChunk :=
  {| dc_task := {| ct_at := ("temp", i); ct_value := v |};
     dc_target := {| array_store := 0; array_path := "temp" |} |}.

(** The writer of [ds] once its eager lists are written. *)
Definition temp_writer : LazyArrayWriter :=
  {| sources := [temp];
     targets := [{| array_store := 0; array_path := "temp" |}];
     regions := [None];
     eager_sources := []; eager_targets := []; eager_regions := [] |}.

(** The canonical store when [write_lazy] begins. *)
Definition canonical_before : StoreObj :=
  @Build_StoreObj store_model (default ∅ (pending (W2 ds) 0)) [].

(** The three variables of [ds] as the arguments of three [add] calls. *)
Definition three_tasks : list task :=
  [(lat, {| array_store := 0; array_path := "lat" |}, None);
   (temp, {| array_store := 0; array_path := "temp" |}, None);
   (lon, {| array_store := 0; array_path := "lon" |}, Some [])].

Definition temp_chunk (i : nat) (v : Z) : DelayedChunk :=
  {| dc_task := {| ct_at := ("temp", i); ct_value := Some v |};
     dc_target := {| array_store := 0; array_path := "temp" |} |}.

(** Three stores with disjoint change-sets, reduced in two orders and
    with two branching factors. *)
Definition W3 : World :=
  [{| obj_state := {[("a", 0) := 1%Z]}; merge_calls := [] |};
   {| obj_state := {[("a", 1) := 2%Z]}; merge_calls := [] |};
   {| obj_state := {[("b", 0) := 3%Z]}; merge_calls := [] |}].

End Scenario.

(** * The same datasets, with the chunk tasks run in process *)

Module InProcess.
Import ChangeSets.

#[local] Existing Instance threaded_model.

(** A world with the canonical store only, nothing pending. *)
Definition canonical_only : World := [{| obj_state := ∅; merge_calls := [] |}].

(** The deferred lists hold [broken] alone. *)
Definition failing_writer : LazyArrayWriter :=
  {| sources := [Scenario.broken];
     targets := [{| array_store := 0; array_path := "temp" |}];
     regions := [None];
     eager_sources := []; eager_targets := []; eager_regions := [] |}.

Definition failing_self : XarrayDatasetWriter :=
  {| dataset := [(Scenario.broken, "temp", None)]; store := 0;
     _initialized := true; writer := Some failing_writer |}.

(** The three variables of [ds], declared and their eager part written. *)
Definition after_metadata : outcome unit * XarrayDatasetWriter * World :=
  write_metadata true
    {| dataset := Scenario.ds; store := 0; _initialized := false; writer := None |}
    tt canonical_only.

Definition after_eager : outcome unit * XarrayDatasetWriter * World :=
  write_eager after_metadata.1.2 after_metadata.2.

End InProcess.

(** * Groups of the tree reduction *)

Section Chunks.
Context {T : Type}.
Implicit Types l : list T.

Lemma chunks_upto_cons (n k : nat) (x : T) l :
  chunks_upto (S n) k (x :: l) =
  take k (x :: l) :: chunks_upto n k (drop k (x :: l)).
Proof. done. Qed.

(** The groups are contiguous and cover the items. *)
Lemma chunks_upto_concat (n k : nat) l :
  (1 ≤ k)%nat → (length l ≤ n)%nat → concat (chunks_upto n k l) = l.
Proof.
  intros Hk. revert l. induction n as [|n IH]; intros [|x l] Hn; simpl in Hn;
    try done; try lia.
  rewrite chunks_upto_cons. simpl concat. rewrite IH.
  - apply take_drop.
  - rewrite length_drop. simpl. lia.
Qed.

Lemma chunks_upto_nonempty (n k : nat) l :
  (1 ≤ k)%nat → Forall (λ g, g ≠ []) (chunks_upto n k l).
Proof.
  intros Hk. revert l. induction n as [|n IH]; intros [|x l]; try by constructor.
  rewrite chunks_upto_cons. constructor; [|apply IH].
  destruct k; [lia|done].
Qed.

Lemma chunks_upto_length_le (n k : nat) l :
  (1 ≤ k)%nat → (length (chunks_upto n k l) ≤ length l)%nat.
Proof.
  intros Hk. revert l. induction n as [|n IH]; intros [|x l]; simpl; try lia.
  specialize (IH (drop k (x :: l))). rewrite length_drop in IH. simpl in *. lia.
Qed.

(** With a branching factor of two or more a level is shorter than the
    level below it. *)
Lemma chunks_length_lt (k : nat) l :
  (2 ≤ k)%nat → (2 ≤ length l)%nat → (length (chunks k l) < length l)%nat.
Proof.
  intros Hk Hl. unfold chunks. destruct l as [|x l]; [simpl in Hl; lia|].
  change (chunks_upto (length (x :: l)) k (x :: l))
    with (take k (x :: l) :: chunks_upto (length l) k (drop k (x :: l))).
  pose proof (chunks_upto_length_le (length l) k (drop k (x :: l))) as Hle.
  rewrite length_drop in Hle. simpl in *. lia.
Qed.

Lemma chunks_length_pos (k : nat) l :
  l ≠ [] → (1 ≤ length (chunks k l))%nat.
Proof. destruct l; [done|]. intros _. unfold chunks. simpl. lia. Qed.

Lemma elem_of_concat (x : T) (g : list T) (gs : list (list T)) :
  x ∈ g → g ∈ gs → x ∈ concat gs.
Proof.
  intros Hx Hg. induction gs as [|g' gs IH]; [by apply elem_of_nil in Hg|].
  simpl. apply elem_of_app. apply elem_of_cons in Hg as [<-|Hg]; eauto.
Qed.

Lemma chunks_concat (k : nat) l : (1 ≤ k)%nat → concat (chunks k l) = l.
Proof. intros Hk. by apply chunks_upto_concat. Qed.

End Chunks.

(** * Facts about the eager path *)

Section EagerFacts.
Context `{External}.
Variable has_dask : bool.

Lemma tasks_of_snoc (ss : list Source) (ts : list Array) (rs : list Region) s t r :
  lockstep ss ts rs →
  tasks_of (ss ++ [s]) (ts ++ [t]) (rs ++ [r]) = tasks_of ss ts rs ++ [(s, t, r)].
Proof.
  intros [Hst Htr]. unfold tasks_of.
  rewrite (zip_with_app pair ss [s] ts [t]) by done.
  rewrite zip_with_app; [done|].
  rewrite length_zip_with. lia.
Qed.

Lemma lockstep_snoc {A B C : Type} (xs : list A) (ys : list B) (zs : list C) x y z :
  lockstep xs ys zs → lockstep (xs ++ [x]) (ys ++ [y]) (zs ++ [z]).
Proof. intros [? ?]. unfold lockstep. rewrite !length_app. simpl. lia. Qed.

Lemma lockstep_nil {A B C : Type} : lockstep (@nil A) (@nil B) (@nil C).
Proof. done. Qed.

(** One [add] extends exactly one of the two task lists. *)
Lemma add_spec (w : LazyArrayWriter) s t r :
  lockstep (sources w) (targets w) (regions w) →
  lockstep (eager_sources w) (eager_targets w) (eager_regions w) →
  let w' := add has_dask w s t r in
  lockstep (sources w') (targets w') (regions w') ∧
  lockstep (eager_sources w') (eager_targets w') (eager_regions w') ∧
  deferred_tasks w' =
    deferred_tasks w ++ (if is_chunked_array has_dask s then [(s, t, r)] else []) ∧
  eager_tasks w' =
    eager_tasks w ++ (if is_chunked_array has_dask s then [] else [(s, t, r)]).
Proof.
  intros Hd He. unfold add, deferred_tasks, eager_tasks.
  destruct (is_chunked_array has_dask s); simpl.
  - split_and!; try done.
    + by apply lockstep_snoc.
    + by apply tasks_of_snoc.
    + by rewrite app_nil_r.
  - split_and!; try done.
    + by apply lockstep_snoc.
    + by rewrite app_nil_r.
    + by apply tasks_of_snoc.
Qed.

Lemma add_all_spec (tasks : list task) (w : LazyArrayWriter) :
  lockstep (sources w) (targets w) (regions w) →
  lockstep (eager_sources w) (eager_targets w) (eager_regions w) →
  let w' := add_all has_dask tasks w in
  lockstep (sources w') (targets w') (regions w') ∧
  lockstep (eager_sources w') (eager_targets w') (eager_regions w') ∧
  deferred_tasks w' = deferred_tasks w ++ List.filter (chunked has_dask) tasks ∧
  eager_tasks w' =
    eager_tasks w ++ List.filter (λ t, negb (chunked has_dask t)) tasks.
Proof.
  revert w. induction tasks as [|[[s t] r] tasks IH]; intros w Hd He.
  - simpl. rewrite !app_nil_r. done.
  - destruct (add_spec w s t r Hd He) as (Hd' & He' & Hdt & Het).
    destruct (IH _ Hd' He') as (Hd'' & He'' & Hdt' & Het').
    cbn zeta. unfold add_all in *. simpl foldl.
    split_and!; try done.
    + rewrite Hdt', Hdt. unfold chunked at 2. simpl.
      destruct (is_chunked_array has_dask s); simpl; by rewrite <- app_assoc.
    + rewrite Het', Het. unfold chunked at 2. simpl.
      destruct (is_chunked_array has_dask s); simpl; by rewrite <- app_assoc.
Qed.

Lemma filter_split_perm {A : Type} (f : A → bool) (l : list A) :
  l ≡ₚ List.filter f l ++ List.filter (λ x, negb (f x)) l.
Proof.
  induction l as [|x l IH]; [done|]. simpl.
  destruct (f x); simpl.
  - by constructor.
  - rewrite <- Permutation_middle. by constructor.
Qed.

(** The loop over the strict zip is the sequence of the tasks' writes. *)
Lemma write_eager_loop_lockstep (ss : list Source) (ts : list Array) (rs : list Region) :
  lockstep ss ts rs →
  write_eager_loop ss ts rs = write_each (tasks_of ss ts rs).
Proof.
  revert ts rs. induction ss as [|s ss IH]; intros [|t ts] [|r rs] [Hst Htr];
    simplify_eq/=; try done.
  rewrite IH; [done|]. split; lia.
Qed.

(** The loop returns only when the three lists have one length. *)
Lemma write_eager_loop_ret (ss : list Source) (ts : list Array) (rs : list Region) W W' :
  write_eager_loop ss ts rs W = (Ret tt, W') → lockstep ss ts rs.
Proof.
  revert ts rs W. induction ss as [|s ss IH]; intros [|t ts] [|r rs] W; simpl;
    try discriminate; try done.
  unfold bind. destruct (call_setitem _ _ _ W) as [[[]|e|] W1]; try discriminate.
  intros Hl. apply IH in Hl. destruct Hl. split; simpl; lia.
Qed.

Lemma delayed_store_lockstep (ss : list Source) (ts : list Array) (rs : list Region) :
  lockstep ss ts rs →
  delayed_store ss ts rs = inr (flat_map delayed_of (tasks_of ss ts rs)).
Proof.
  revert ts rs. induction ss as [|s ss IH]; intros [|t ts] [|r rs] [Hst Htr];
    simplify_eq/=; try done.
  rewrite IH; [done|]. split; lia.
Qed.

Lemma chunked_test (t : task) :
  chunked has_dask t = has_dask && is_dask_collection t.1.1.
Proof. unfold chunked, is_chunked_array. by destruct has_dask. Qed.

Lemma filter_chunked (tasks : list task) :
  List.filter (chunked has_dask) tasks =
  List.filter (λ t, has_dask && is_dask_collection t.1.1) tasks.
Proof. apply List.filter_ext, chunked_test. Qed.

Lemma filter_not_chunked (tasks : list task) :
  List.filter (λ t, negb (chunked has_dask t)) tasks =
  List.filter (λ t, negb (has_dask && is_dask_collection t.1.1)) tasks.
Proof. apply List.filter_ext. intros t. by rewrite chunked_test. Qed.

(** C5: every task added to the writer is classified once, by the test
    of [is_chunked_array]: with dask, whether the source is a dask
    collection ([is_dask_collection]); without dask, nothing is. An [add]
    of a dask collection extends the deferred lists and leaves the eager
    lists alone, an [add] of anything else extends the eager lists and
    leaves the deferred lists alone. So, from a new writer, the deferred
    lists hold exactly the tasks whose source is a dask collection and the
    eager lists exactly the others, both in the order of the [add] calls;
    the two lists partition the added tasks. [write_eager] writes the
    eager tasks and no other, and leaves the deferred lists alone; what
    [sync] hands to the reduction are the chunks of the deferred tasks and
    of no other. *)
Theorem add_partitions_tasks (tasks : list task) :
  let w := add_all has_dask tasks LazyArrayWriter_init in
  (∀ (w0 : LazyArrayWriter) (s : Source) (t : Array) (r : Region),
     add has_dask w0 s t r =
       if has_dask && is_dask_collection s then
         {| sources := sources w0 ++ [s];
            targets := targets w0 ++ [t];
            regions := regions w0 ++ [r];
            eager_sources := eager_sources w0;
            eager_targets := eager_targets w0;
            eager_regions := eager_regions w0 |}
       else
         {| sources := sources w0;
            targets := targets w0;
            regions := regions w0;
            eager_sources := eager_sources w0 ++ [s];
            eager_targets := eager_targets w0 ++ [t];
            eager_regions := eager_regions w0 ++ [r] |}) ∧
  deferred_tasks w =
    List.filter (λ t, has_dask && is_dask_collection t.1.1) tasks ∧
  eager_tasks w =
    List.filter (λ t, negb (has_dask && is_dask_collection t.1.1)) tasks ∧
  tasks ≡ₚ deferred_tasks w ++ eager_tasks w ∧
  (∀ t, t ∈ deferred_tasks w → t ∉ eager_tasks w) ∧
  (∀ W, LazyArrayWriter_write_eager w W =
        finish_eager w
          (write_each
             (List.filter (λ t, negb (has_dask && is_dask_collection t.1.1)) tasks)
             W)) ∧
  sync w =
    inr (flat_map delayed_of
           (List.filter (λ t, has_dask && is_dask_collection t.1.1) tasks),
         synced w).
Proof.
  destruct (add_all_spec tasks LazyArrayWriter_init lockstep_nil lockstep_nil)
    as (Hd & He & Hdt & Het).
  cbn zeta. rewrite Hdt, Het. simpl.
  rewrite filter_chunked, filter_not_chunked.
  split_and!.
  - intros w0 s t r. unfold add, is_chunked_array. by destruct has_dask.
  - done.
  - done.
  - apply filter_split_perm.
  - intros t Ht Ht'.
    apply list_elem_of_In, filter_In in Ht as [_ Ht].
    apply list_elem_of_In, filter_In in Ht' as [_ Ht'].
    rewrite Ht in Ht'. done.
  - intros W. unfold LazyArrayWriter_write_eager.
    rewrite (write_eager_loop_lockstep _ _ _ He).
    fold (eager_tasks (add_all has_dask tasks LazyArrayWriter_init)).
    rewrite Het. simpl. done.
  - unfold sync. rewrite (delayed_store_lockstep _ _ _ Hd).
    fold (deferred_tasks (add_all has_dask tasks LazyArrayWriter_init)).
    rewrite Hdt. done.
Qed.

(** C6: [write_eager] executes every accumulated eager task, in order, by
    writing its source into its target ([write_each]) and then empties the
    eager lists, provided the three lists have one length; it returns only
    if they have (the zip is strict). The index of a write restricts the
    axes of the task's region when a region was given, and no axis, hence
    the whole array, otherwise. *)
Theorem write_eager_writes_each_task (w : LazyArrayWriter) (W : World) :
  (lockstep (eager_sources w) (eager_targets w) (eager_regions w) →
   LazyArrayWriter_write_eager w W =
     finish_eager w (write_each (eager_tasks w) W)) ∧
  ((LazyArrayWriter_write_eager w W).1.1 = Ret tt →
   lockstep (eager_sources w) (eager_targets w) (eager_regions w)) ∧
  (∀ region : Region,
     restricted_axes (region_or_ellipsis region) = default [] region).
Proof.
  split_and!.
  - intros Hl. unfold LazyArrayWriter_write_eager.
    by rewrite (write_eager_loop_lockstep _ _ _ Hl).
  - unfold LazyArrayWriter_write_eager.
    destruct (write_eager_loop _ _ _ W) as [[[]|e|] W'] eqn:Hloop; try done.
    intros _. by eapply write_eager_loop_ret.
  - by intros [[|s sl]|].
Qed.

(** C8: the eager phase is idempotent. When [write_eager] has returned,
    the eager lists are empty, and a second call returns without a write:
    it leaves the writer and every store as the first call left them. *)
Theorem write_eager_idempotent (self self' : XarrayDatasetWriter) (W W' : World) :
  write_eager self W = (Ret tt, self', W') →
  (∃ w', writer self' = Some w' ∧
         eager_sources w' = [] ∧ eager_targets w' = [] ∧ eager_regions w' = []) ∧
  write_eager self' W' = (Ret tt, self', W').
Proof.
  unfold write_eager.
  destruct (_initialized self) eqn:Hinit; [|discriminate]. simpl.
  destruct (writer self) as [w|] eqn:Hw; [|discriminate].
  unfold LazyArrayWriter_write_eager.
  destruct (write_eager_loop _ _ _ W) as [[[]|e|] W1]; try discriminate.
  intros [= <- <-]. simpl. rewrite Hinit. simpl. split; [|done].
  eexists. done.
Qed.

End EagerFacts.

(** * Facts about the writer's state machine *)

Section StateMachineFacts.
Context `{External}.

Lemma add_all_no_dask (tasks : list task) (w : LazyArrayWriter) :
  let w' := add_all false tasks w in
  sources w' = sources w ∧ targets w' = targets w ∧ regions w' = regions w.
Proof.
  revert w. induction tasks as [|t tasks IH]; intros w; [done|].
  destruct (IH (add false w t.1.1 t.1.2 t.2)) as (Hs & Ht & Hr).
  cbn zeta in *. unfold add_all in *. simpl foldl.
  rewrite Hs, Ht, Hr. done.
Qed.

Lemma add_variables_add_all has_dask (st : handle)
    (vars : list (Source * string * Region)) (w : LazyArrayWriter) :
  add_variables has_dask st vars w =
  add_all has_dask
    (map (λ v, (v.1.1, {| array_store := st; array_path := v.1.2 |}, v.2)) vars) w.
Proof.
  revert w. induction vars as [|v vars IH]; intros w; [done|].
  unfold add_variables, add_all in *. simpl. apply IH.
Qed.

(** The writer that a completed [write_metadata] leaves. *)
Lemma write_metadata_ret has_dask self args W self' W' :
  write_metadata has_dask self args W = (Ret tt, self', W') →
  _initialized self' = true ∧
  ∃ vars, writer self' =
          Some (add_variables has_dask (store self) vars LazyArrayWriter_init).
Proof.
  unfold write_metadata.
  destruct (W !! store self) as [o|]; [|discriminate].
  destruct (open_and_validate _ _ _) as [[e|[]] s1]; [discriminate|].
  destruct (dump_to_store _ _ _) as [[vars [e|]] s2]; [discriminate|].
  intros [= <- <-]. simpl. eauto.
Qed.

Lemma undeclared_not_initialized has_dask self :
  undeclared has_dask self → _initialized self = false.
Proof.
  induction 1 as [ds st self Hnew|self args W r self' W' _ IH Hmd Hr
                 |self W r self' W' _ IH Hwe|self se W r self' W' _ IH Hwl].
  - destruct st; simplify_eq/=. done.
  - revert Hmd. unfold write_metadata.
    destruct (W !! store self) as [o|]; [|by intros [= <- <- <-]].
    destruct (open_and_validate _ _ _) as [[e|[]] s1]; [by intros [= <- <- <-]|].
    destruct (dump_to_store _ _ _) as [[vars [e|]] s2]; intros [= <- <- <-]; done.
  - revert Hwe. unfold write_eager. rewrite IH. simpl. by intros [= <- <- <-].
  - revert Hwl. unfold write_lazy. rewrite IH. simpl. by intros [= <- <- <-].
Qed.

(** C3, as the code has it: on a writer on which no [write_metadata] call
    has completed, [write_eager] and [write_lazy] raise at once, leaving
    the writer and every store as they were. The exception is a
    [ValueError] with the message ``Please call `write_metadata` first.''
    (the module defines no exception class of its own). *)
Theorem write_before_metadata_raises has_dask (self : XarrayDatasetWriter)
    (se : option Z) (W : World) :
  undeclared has_dask self →
  write_eager self W = (Raise not_initialized, self, W) ∧
  write_lazy self se W = (Raise not_initialized, self, W) ∧
  not_initialized = ValueError "Please call `write_metadata` first.".
Proof.
  intros Hu. apply undeclared_not_initialized in Hu.
  unfold write_eager, write_lazy. rewrite Hu. done.
Qed.

Lemma write_lazy_nil (self : XarrayDatasetWriter) (w : LazyArrayWriter)
    (se : option Z) (W : World) :
  _initialized self = true → writer self = Some w → sources w = [] →
  write_lazy self se W = (Ret tt, self, W).
Proof.
  intros Hinit Hw Hs. unfold write_lazy. rewrite Hinit, Hw, Hs. done.
Qed.

(** C7: without deferred tasks [write_lazy] returns at once. The writer
    and the world of stores are as before: no store was added, as the
    chunk tasks of a reduction would, and no store, the canonical one
    among them, has a new state or a new entry in its log of [merge]
    calls. *)
Theorem write_lazy_no_deferred_noop (self : XarrayDatasetWriter)
    (w : LazyArrayWriter) (se : option Z) (W : World) :
  _initialized self = true →
  writer self = Some w →
  sources w = [] →
  write_lazy self se W = (Ret tt, self, W).
Proof.
  intros Hinit Hw Hs. unfold write_lazy. rewrite Hinit, Hw, Hs. done.
Qed.

(** C9: a [store] argument that is not an [IcechunkStore] makes the
    constructor raise [ValueError]; [to_icechunk] then raises it with no
    store of the world touched. *)
Theorem not_a_store_raises has_dask (ds : Dataset) (type_repr : string)
    (init : bool) (args : MetadataArgs) (se : option Z) (W : World) :
  let e := ValueError ("Please pass in an IcechunkStore. Recevied "
                         +:+ type_repr +:+ " instead.") in
  XarrayDatasetWriter_new ds (OtherObject type_repr) init = inl e ∧
  to_icechunk has_dask ds (OtherObject type_repr) args se W = (Raise e, W).
Proof. done. Qed.

(** C10: without dask, [is_chunked_array] is [False] on every input; every
    task that is added goes to the eager lists, in order, and the deferred
    lists stay empty; after [write_metadata], and after [write_eager]
    then, [write_lazy] returns at once and changes nothing. *)
Theorem no_dask_all_eager :
  (∀ x : Source, is_chunked_array false x = false) ∧
  (∀ tasks : list task,
     let w := add_all false tasks LazyArrayWriter_init in
     sources w = [] ∧ targets w = [] ∧ regions w = [] ∧ eager_tasks w = tasks) ∧
  (∀ self args W self1 W1 r self2 W2 se,
     write_metadata false self args W = (Ret tt, self1, W1) →
     write_lazy self1 se W1 = (Ret tt, self1, W1) ∧
     (write_eager self1 W1 = (r, self2, W2) →
      write_lazy self2 se W2 = (Ret tt, self2, W2))).
Proof.
  split_and!.
  - done.
  - intros tasks.
    destruct (add_all_no_dask tasks LazyArrayWriter_init) as (Hs & Ht & Hr).
    destruct (add_all_spec false tasks LazyArrayWriter_init lockstep_nil lockstep_nil)
      as (_ & _ & _ & He).
    cbn zeta in *. rewrite Hs, Ht, Hr, He. simpl.
    split_and!; try done.
    clear. induction tasks as [|t tasks IH]; [done|]. simpl. by rewrite IH.
  - intros self args W self1 W1 r self2 W2 se Hmd.
    apply write_metadata_ret in Hmd as (Hinit & vars & Hw).
    rewrite add_variables_add_all in Hw.
    destruct (add_all_no_dask
      (map (λ v, (v.1.1, {| array_store := store self; array_path := v.1.2 |}, v.2)) vars)
      LazyArrayWriter_init) as (Hs & _).
    cbn zeta in Hs. simpl in Hs.
    split.
    + by eapply write_lazy_nil.
    + unfold write_eager. rewrite Hinit, Hw. simpl.
      unfold LazyArrayWriter_write_eager.
      destruct (write_eager_loop _ _ _ W1) as [[[]|e|] W']; intros [= <- <- <-];
        by eapply write_lazy_nil.
Qed.

End StateMachineFacts.

(** * Facts about the lazy path *)

Section LazyFacts.
Context `{External}.

Lemma mapM_cons {A B : Type} (f : A → M B) (a : A) (l : list A) :
  mapM f (a :: l) = bind (f a) (λ b, bind (mapM f l) (λ bs, ret (b :: bs))).
Proof. done. Qed.

(** [merge] changes the object it is called on and no other. *)
Lemma call_merge_frame (h : handle) (b : ChangeSet) (W W' : World) r :
  call_merge h b W = (r, W') →
  length W' = length W ∧ ∀ i, i ≠ h → W' !! i = W !! i.
Proof.
  unfold call_merge. destruct (W !! h) as [o|]; [|by intros [= <- <-]].
  destruct (store_merge _ _) as [[e|] s]; intros [= <- <-];
    (split; [by rewrite length_insert|]);
    intros i Hi; by rewrite list_lookup_insert_ne.
Qed.

Lemma call_change_set_bytes_world (h : handle) (W W' : World) r :
  call_change_set_bytes h W = (r, W') → W' = W.
Proof.
  unfold call_change_set_bytes. destruct (W !! h); by intros [= <- <-].
Qed.

Lemma merge_rest_frame (store : handle) (rest : list handle) (W W' : World) r :
  merge_rest store rest W = (r, W') →
  length W' = length W ∧ ∀ i, i ≠ store → W' !! i = W !! i.
Proof.
  revert W. induction rest as [|other rest IH]; intros W; simpl.
  - by intros [= <- <-].
  - unfold bind at 1.
    destruct (call_change_set_bytes other W) as [[b|e|] W0] eqn:Hb;
      apply call_change_set_bytes_world in Hb as ->;
      try (by intros [= <- <-]).
    unfold bind at 1.
    destruct (call_merge store b W) as [[[]|e|] W1] eqn:Hm;
      apply call_merge_frame in Hm as [Hlen Hfr];
      try (by intros [= <- <-]).
    intros Hrest. apply IH in Hrest as [Hlen' Hfr']. split; [congruence|].
    intros i Hi. rewrite Hfr', Hfr; done.
Qed.

(** [merge_stores] merges into its first argument and returns it. *)
Lemma merge_stores_frame (stores : list handle) (W W' : World) r :
  merge_stores stores W = (r, W') →
  length W' = length W ∧
  (∀ i, i ∉ stores → W' !! i = W !! i) ∧
  (∀ h, r = Ret h → h ∈ stores).
Proof.
  destruct stores as [|store rest]; simpl.
  - intros [= <- <-]. done.
  - unfold bind.
    destruct (merge_rest store rest W) as [[[]|e|] W1] eqn:Hm;
      apply merge_rest_frame in Hm as [Hlen Hfr];
      intros [= <- <-]; (split; [done|]); split;
      try (intros i Hi; apply Hfr; set_solver); try done.
    intros h [= <-]. set_solver.
Qed.

Lemma mapM_merge_stores_frame (groups : list (list handle)) (W W' : World) r :
  mapM merge_stores groups W = (r, W') →
  length W' = length W ∧
  (∀ i, i ∉ concat groups → W' !! i = W !! i) ∧
  (∀ hs, r = Ret hs → ∀ h, h ∈ hs → h ∈ concat groups).
Proof.
  revert W W' r. induction groups as [|g groups IH]; intros W W' r; simpl.
  - intros [= <- <-]. split_and!; try done. intros hs [= <-] h Hh.
    by apply elem_of_nil in Hh.
  - unfold bind at 1.
    destruct (merge_stores g W) as [[h0|e|] W1] eqn:Hg;
      apply merge_stores_frame in Hg as (Hlen & Hfr & Hin).
    + unfold bind at 1.
      destruct (mapM merge_stores groups W1) as [[hs|e|] W2] eqn:Hgs;
        apply IH in Hgs as (Hlen' & Hfr' & Hin');
        intros [= <- <-]; (split; [congruence|]); split;
        try (intros i Hi; rewrite not_elem_of_app in Hi; destruct Hi;
             rewrite Hfr', Hfr; done); try done.
      intros hs' [= <-] h Hh. apply elem_of_app.
      apply elem_of_cons in Hh as [->|Hh]; [left; by apply Hin|].
      right. by eapply Hin'.
    + intros [= <- <-]. split_and!; try done.
      intros i Hi. rewrite not_elem_of_app in Hi. destruct Hi. by apply Hfr.
    + intros [= <- <-]. split_and!; try done.
      intros i Hi. rewrite not_elem_of_app in Hi. destruct Hi. by apply Hfr.
Qed.

Lemma chunks_upto_subseteq {T : Type} (n k : nat) (l : list T) :
  ∀ x, x ∈ concat (chunks_upto n k l) → x ∈ l.
Proof.
  revert l. induction n as [|n IH]; intros l x.
  - destruct l; simpl; intros Hx; by apply elem_of_nil in Hx.
  - destruct l as [|y l]; [simpl; intros Hx; by apply elem_of_nil in Hx|].
    change (chunks_upto (S n) k (y :: l))
      with (take k (y :: l) :: chunks_upto n k (drop k (y :: l))).
    simpl concat. intros [Hx|Hx]%elem_of_app.
    + by eapply subseteq_take.
    + apply IH in Hx. by eapply subseteq_drop.
Qed.

Lemma chunks_subseteq {T : Type} (k : nat) (l : list T) :
  ∀ x, x ∈ concat (chunks k l) → x ∈ l.
Proof. apply chunks_upto_subseteq. Qed.

(** One level of the reduction, and the levels above it. *)
Lemma tree_reduce_step {T : Type} (fuel k : nat) (combine : list T → M T)
    (x y : T) (items : list T) :
  tree_reduce (S fuel) combine (S k) (x :: y :: items) =
  bind (mapM combine (chunks (S k) (x :: y :: items)))
       (tree_reduce fuel combine (S k)).
Proof. done. Qed.

(** The tree reduction touches the stores it is given and no other, and
    what it returns is one of them. *)
Lemma tree_reduce_frame (fuel k : nat) (items : list handle) (W W' : World) r :
  tree_reduce fuel merge_stores k items W = (r, W') →
  length W' = length W ∧
  (∀ i, i ∉ items → W' !! i = W !! i) ∧
  (∀ h, r = Ret h → h ∈ items).
Proof.
  revert items W. induction fuel as [|fuel IH]; intros items W.
  - destruct items as [|x [|y items]]; simpl; intros [= <- <-]; split_and!;
      try done. intros h [= <-]. apply list_elem_of_singleton. done.
  - destruct items as [|x [|y items]].
    + destruct k as [|k]; simpl; [by intros [= <- <-]|].
      unfold bind. simpl. intros Hr. apply IH in Hr. done.
    + simpl. intros [= <- <-]. split_and!; try done.
      intros h [= <-]. by apply list_elem_of_singleton.
    + destruct k as [|k]; [simpl; by intros [= <- <-]|].
      rewrite tree_reduce_step. unfold bind at 1.
      destruct (mapM merge_stores _ W) as [[hs|e|] W1] eqn:Hround;
        apply mapM_merge_stores_frame in Hround as (Hlen & Hfr & Hin).
      * intros Hrec. apply IH in Hrec as (Hlen' & Hfr' & Hin').
        split; [congruence|]. split.
        -- intros i Hi. rewrite Hfr'.
           ++ apply Hfr. intros Hc. by apply chunks_subseteq in Hc.
           ++ intros Hc. apply (Hin hs eq_refl), chunks_subseteq in Hc. done.
        -- intros h Hh. apply Hin' in Hh.
           apply (Hin hs eq_refl), chunks_subseteq in Hh. done.
      * intros [= <- <-]. split_and!; try done.
        intros i Hi. apply Hfr. intros Hc. by apply chunks_subseteq in Hc.
      * intros [= <- <-]. split_and!; try done.
        intros i Hi. apply Hfr. intros Hc. by apply chunks_subseteq in Hc.
Qed.

Lemma run_delayed_ok (d : DelayedChunk) (W : World) o s :
  in_process = false →
  W !! array_store (dc_target d) = Some o →
  run_chunk_task (dc_task d) (obj_state o) = inr s →
  run_delayed d W =
    (Ret {| array_store := length W; array_path := array_path (dc_target d) |},
     W ++ [{| obj_state := s; merge_calls := [] |}]).
Proof.
  intros Hp Ho Hs. unfold run_delayed. rewrite Hp.
  unfold bind, call_clone, call_run_chunk_task.
  rewrite Ho. rewrite list_lookup_middle by done. simpl. rewrite Hs. simpl.
  unfold ret. f_equal.
  rewrite insert_app_r_alt by done. by rewrite Nat.sub_diag.
Qed.

Lemma run_delayed_fail (d : DelayedChunk) (W : World) o e :
  in_process = false →
  W !! array_store (dc_target d) = Some o →
  run_chunk_task (dc_task d) (obj_state o) = inl e →
  run_delayed d W =
    (Raise e, W ++ [{| obj_state := obj_state o; merge_calls := [] |}]).
Proof.
  intros Hp Ho He. unfold run_delayed. rewrite Hp.
  unfold bind, call_clone, call_run_chunk_task.
  rewrite Ho. rewrite list_lookup_middle by done. simpl. by rewrite He.
Qed.

(** Out of process a chunk task adds its own store to the world and
    touches no store that was there. *)
Lemma run_delayed_extends (d : DelayedChunk) (W W1 : World) r :
  in_process = false →
  run_delayed d W = (r, W1) →
  (∃ ext, W1 = W ++ ext) ∧ (∀ a, r = Ret a → array_store a = length W).
Proof.
  intros Hp.
  destruct (W !! array_store (dc_target d)) as [o|] eqn:Ho.
  - destruct (run_chunk_task (dc_task d) (obj_state o)) as [e|s] eqn:Hs.
    + rewrite (run_delayed_fail _ _ _ _ Hp Ho Hs). intros [= <- <-].
      split; [eauto|done].
    + rewrite (run_delayed_ok _ _ _ _ Hp Ho Hs). intros [= <- <-].
      split; [eauto|]. by intros a [= <-].
  - unfold run_delayed. rewrite Hp. unfold bind, call_clone. rewrite Ho.
    intros [= <- <-]. split; [|done]. exists []. by rewrite app_nil_r.
Qed.

Lemma mapM_run_delayed_extends (ds : list DelayedChunk) (W W1 : World) r :
  in_process = false →
  mapM run_delayed ds W = (r, W1) →
  (∃ ext, W1 = W ++ ext) ∧
  (∀ arrays, r = Ret arrays → Forall (λ a, (length W ≤ array_store a)%nat) arrays).
Proof.
  intros Hp. revert W W1 r. induction ds as [|d ds IH]; intros W W1 r; simpl.
  - intros [= <- <-]. split; [exists []; by rewrite app_nil_r|].
    by intros arrays [= <-].
  - unfold bind at 1.
    destruct (run_delayed d W) as [[a|e|] W0] eqn:Hd;
      apply (run_delayed_extends _ _ _ _ Hp) in Hd as [[ext ->] Ha];
      try (intros [= <- <-]; split; [eauto|done]).
    unfold bind at 1.
    destruct (mapM run_delayed ds (W ++ ext)) as [[arrays|e|] W2] eqn:Hds;
      apply IH in Hds as [[ext' ->] Harr];
      intros [= <- <-];
      (split; [exists (ext ++ ext'); by rewrite app_assoc|]); try done.
    intros ? [= <-]. constructor.
    + by rewrite (Ha a eq_refl).
    + eapply Forall_impl; [by apply Harr|].
      intros a' Ha'. simpl in Ha'. rewrite length_app in Ha'. lia.
Qed.

(** Out of process the first task that fails fails the whole run. *)
Lemma mapM_run_delayed_fails (pre post : list DelayedChunk) (d : DelayedChunk)
    (e : exn) (W : World) :
  in_process = false →
  Forall (succeeds W) pre → fails W d e →
  ∃ W1, mapM run_delayed (pre ++ d :: post) W = (Raise e, W1).
Proof.
  intros Hp. revert W.
  induction pre as [|a pre IH]; intros W Hpre (o & Ho & He); simpl.
  - unfold bind. rewrite (run_delayed_fail _ _ _ _ Hp Ho He). eauto.
  - apply Forall_cons in Hpre as [(o' & s & Ho' & Hs) Hpre].
    unfold bind at 1. rewrite (run_delayed_ok _ _ _ _ Hp Ho' Hs).
    destruct (IH (W ++ [{| obj_state := s; merge_calls := [] |}])) as [W1 HW1].
    + eapply Forall_impl; [done|]. intros x (ox & sx & Hox & Hsx).
      exists ox, sx. split; [|done]. by apply lookup_app_l_Some.
    + exists o. split; [|done]. by apply lookup_app_l_Some.
    + unfold bind at 1. rewrite HW1. eauto.
Qed.

(** Out of process the reduction leaves every store that was there before
    it as it was; the store it returns is a new one. *)
Lemma stateful_store_reduce_frame (ds : list DelayedChunk) (se : option Z)
    (W W1 : World) r :
  in_process = false →
  stateful_store_reduce ds extract_stores merge_stores se W = (r, W1) →
  (∀ c, (c < length W)%nat → W1 !! c = W !! c) ∧
  (∀ h, r = Ret h → (length W ≤ h)%nat).
Proof.
  intros Hp. unfold stateful_store_reduce, bind.
  destruct (mapM run_delayed ds W) as [[arrays|e|] W0] eqn:Hrun;
    apply (mapM_run_delayed_extends _ _ _ _ Hp) in Hrun as [[ext ->] Harr];
    try (intros [= <- <-]; split; [|done]; intros c Hc; by apply lookup_app_l).
  specialize (Harr arrays eq_refl).
  assert (Hitems : ∀ h, h ∈ map extract_stores arrays → (length W ≤ h)%nat).
  { intros h (a & -> & Ha)%list_elem_of_fmap.
    rewrite Forall_forall in Harr. by apply Harr. }
  intros Hred. apply tree_reduce_frame in Hred as (Hlen & Hfr & Hin).
  split.
  - intros c Hc. rewrite Hfr.
    + by apply lookup_app_l.
    + intros Hc'. apply Hitems in Hc'. lia.
  - intros h Hh. apply Hitems. by apply Hin.
Qed.

Lemma call_run_chunk_task_frame (t : ChunkTask) (h : handle) (W W' : World) r :
  call_run_chunk_task t h W = (r, W') →
  length W' = length W ∧ ∀ j, j ≠ h → W' !! j = W !! j.
Proof.
  unfold call_run_chunk_task. destruct (W !! h) as [o|]; [|by intros [= <- <-]].
  destruct (run_chunk_task _ _); intros [= <- <-]; [done|].
  split; [apply length_insert|]. intros j Hj. by apply list_lookup_insert_ne.
Qed.

(** In process the chunk tasks write into the stores of their targets
    and yield the targets themselves. *)
Lemma mapM_run_delayed_in_process (ds : list DelayedChunk) (W W1 : World) r :
  in_process = true →
  mapM run_delayed ds W = (r, W1) →
  length W1 = length W ∧
  (∀ j, j ∉ target_stores ds → W1 !! j = W !! j) ∧
  (∀ arrays, r = Ret arrays → map extract_stores arrays = target_stores ds).
Proof.
  intros Hp. revert W W1 r. induction ds as [|d ds IH]; intros W W1 r; simpl.
  - intros [= <- <-]. split_and!; try done. by intros arrays [= <-].
  - unfold bind at 1. unfold run_delayed at 1. rewrite Hp. unfold bind at 1.
    destruct (call_run_chunk_task _ _ W) as [[[]|e|] W0] eqn:Hrun;
      apply call_run_chunk_task_frame in Hrun as [Hlen Hfr];
      try (intros [= <- <-]; split_and!; try done;
           intros j Hj; apply not_elem_of_cons in Hj as [Hj _]; by apply Hfr).
    unfold ret at 1. unfold bind at 1.
    destruct (mapM run_delayed ds W0) as [[arrays|e|] W2] eqn:Hds;
      apply IH in Hds as (Hlen' & Hfr' & Harr);
      intros [= <- <-]; (split; [congruence|]); split;
      try (intros j Hj; apply not_elem_of_cons in Hj as [Hj1 Hj2];
           rewrite Hfr', Hfr; done); try done.
    intros ? [= <-]. simpl. by rewrite (Harr arrays eq_refl).
Qed.

(** In process the reduction creates no store and touches no store but
    those of the targets. *)
Lemma stateful_store_reduce_in_process (ds : list DelayedChunk) (se : option Z)
    (W W1 : World) r :
  in_process = true →
  stateful_store_reduce ds extract_stores merge_stores se W = (r, W1) →
  length W1 = length W ∧
  (∀ j, j ∉ target_stores ds → W1 !! j = W !! j).
Proof.
  intros Hp. unfold stateful_store_reduce, bind.
  destruct (mapM run_delayed ds W) as [[arrays|e|] W0] eqn:Hrun;
    apply (mapM_run_delayed_in_process _ _ _ _ Hp) in Hrun as (Hlen & Hfr & Harr);
    try (by intros [= <- <-]).
  rewrite (Harr arrays eq_refl).
  intros Hred. apply tree_reduce_frame in Hred as (Hlen' & Hfr' & _).
  split; [congruence|]. intros j Hj. rewrite Hfr', Hfr; done.
Qed.

Lemma delayed_store_targets (ss : list Source) (ts : list Array)
    (rs : list Region) (ds : list DelayedChunk) :
  delayed_store ss ts rs = inr ds →
  ∀ j, j ∈ target_stores ds → j ∈ array_store <$> ts.
Proof.
  revert ts rs ds. induction ss as [|s ss IH]; intros [|t ts] [|r rs] ds; simpl;
    try discriminate.
  - intros [= <-] j Hj. by apply elem_of_nil in Hj.
  - destruct (delayed_store ss ts rs) as [e|ds'] eqn:Hds; [discriminate|].
    intros [= <-] j Hj. unfold target_stores in Hj. rewrite map_app in Hj.
    apply elem_of_app in Hj as [Hj|Hj].
    + rewrite map_map in Hj. simpl in Hj.
      apply list_elem_of_fmap in Hj as (c & -> & _). by left.
    + right. by eapply IH.
Qed.

(** C1, as the code has it: when a chunk task fails, or anything else in
    the task execution or the tree reduction raises, [write_lazy] raises
    that error and does nothing more: the world is as the reduction left
    it, line 270 is not reached. When the chunk tasks run out of process,
    the canonical store is then as it was when [write_lazy] began, with
    the same state and the same log of [merge] calls; the second conjunct
    says so for a task that fails after the tasks before it succeeded. *)
Theorem write_lazy_failure_keeps_store (self : XarrayDatasetWriter)
    (w w' : LazyArrayWriter) (stored : list DelayedChunk) (se : option Z)
    (W : World) (c : StoreObj) :
  _initialized self = true →
  writer self = Some w →
  sources w ≠ [] →
  sync w = inr (stored, w') →
  W !! store self = Some c →
  (∀ e W1,
     stateful_store_reduce stored extract_stores merge_stores se W = (Raise e, W1) →
     write_lazy self se W = (Raise e, set_writer self w', W1) ∧
     (in_process = false → W1 !! store self = Some c)) ∧
  (in_process = false →
   ∀ pre d post e,
     stored = pre ++ d :: post → Forall (succeeds W) pre → fails W d e →
     ∃ W', write_lazy self se W = (Raise e, set_writer self w', W') ∧
           W' !! store self = Some c).
Proof.
  intros Hinit Hw Hsrc Hsync Hc.
  assert (Hred : ∀ e W1,
    stateful_store_reduce stored extract_stores merge_stores se W = (Raise e, W1) →
    write_lazy self se W = (Raise e, set_writer self w', W1) ∧
    (in_process = false → W1 !! store self = Some c)).
  { intros e W1 Hr. unfold write_lazy. rewrite Hinit, Hw. simpl.
    destruct (sources w) as [|s0 ss]; [done|]. rewrite Hsync, Hr.
    split; [done|]. intros Hp.
    apply (stateful_store_reduce_frame _ _ _ _ _ Hp) in Hr as [Hfr _].
    rewrite Hfr; [done|]. by eapply lookup_lt_Some. }
  split; [done|].
  intros Hp pre d post e -> Hpre Hd.
  destruct (mapM_run_delayed_fails pre post d e W Hp Hpre Hd) as [W1 HW1].
  exists W1.
  destruct (Hred e W1) as [Hwl Hsame]; [|by auto].
  unfold stateful_store_reduce, bind. by rewrite HW1.
Qed.

(** C4, as the code has it: a [write_lazy] that returns, with deferred
    tasks to write, ends with one [merge] call on the canonical store,
    with the change-set of the one store that the tree reduction returned.
    When the chunk tasks run out of process, that store is not the
    canonical one, the canonical store goes through the reduction with its
    state and its log of [merge] calls as they were, and the call at the
    end is the only one it receives. *)
Theorem write_lazy_merges_once (self self' : XarrayDatasetWriter)
    (w : LazyArrayWriter) (se : option Z) (W W' : World) (c : StoreObj) :
  _initialized self = true →
  writer self = Some w →
  sources w ≠ [] →
  W !! store self = Some c →
  write_lazy self se W = (Ret tt, self', W') →
  ∃ stored w' merged W1 m c1 s,
    sync w = inr (stored, w') ∧
    stateful_store_reduce stored extract_stores merge_stores se W
      = (Ret merged, W1) ∧
    W1 !! merged = Some m ∧
    W1 !! store self = Some c1 ∧
    store_merge (obj_state c1) (change_set_bytes (obj_state m)) = (None, s) ∧
    W' = <[store self :=
             {| obj_state := s;
                merge_calls := merge_calls c1 ++ [change_set_bytes (obj_state m)] |}]>
           W1 ∧
    (in_process = false →
     merged ≠ store self ∧ c1 = c ∧
     merge_calls <$> W' !! store self =
       Some (merge_calls c ++ [change_set_bytes (obj_state m)])).
Proof.
  intros Hinit Hw Hsrc Hc. unfold write_lazy. rewrite Hinit, Hw. simpl.
  destruct (sources w) as [|s0 ss]; [done|].
  destruct (sync w) as [e|[stored w']]; [discriminate|].
  destruct (stateful_store_reduce _ _ _ _ W) as [[merged|e|] W1] eqn:Hred;
    [|discriminate..].
  unfold bind, call_change_set_bytes.
  destruct (W1 !! merged) as [m|] eqn:Hm; [|discriminate].
  unfold call_merge.
  destruct (W1 !! store self) as [c1|] eqn:Hc1; [|discriminate].
  destruct (store_merge _ _) as [[e|] s] eqn:Hs; [discriminate|].
  intros [= <- <-].
  exists stored, w', merged, W1, m, c1, s. split_and!; try done.
  intros Hp.
  apply (stateful_store_reduce_frame _ _ _ _ _ Hp) in Hred as [Hfr Hnew].
  specialize (Hnew merged eq_refl).
  assert (Hlt : (store self < length W)%nat) by by eapply lookup_lt_Some.
  rewrite Hfr in Hc1 by done. simplify_eq.
  split_and!; [lia|done|].
  rewrite list_lookup_insert_eq; [done|].
  apply lookup_lt_Some in Hm. lia.
Qed.

End LazyFacts.

(** * Merging change-sets *)

Module MergeLaws.
Import ChangeSets.

#[local] Existing Instance store_model.

Lemma merge_assoc (a b c : Changes) : merge (merge a b) c = merge a (merge b c).
Proof. unfold merge. by rewrite (assoc_L (∪)). Qed.

Lemma merge_comm (a b : Changes) : a ##ₘ b → merge a b = merge b a.
Proof. intros Hd. unfold merge. by apply map_union_comm. Qed.

Lemma merge_empty_r (a : Changes) : merge a ∅ = a.
Proof. unfold merge. by rewrite (left_id_L ∅ (∪)). Qed.

Lemma merge_empty_l (a : Changes) : merge ∅ a = a.
Proof. unfold merge. by rewrite (right_id_L ∅ (∪)). Qed.

Lemma foldl_merge (x : Changes) (ms : list Changes) :
  foldl merge x ms = merge x (merge_all ms).
Proof.
  unfold merge_all. revert x. induction ms as [|m ms IH]; intros x; simpl.
  - by rewrite merge_empty_r.
  - rewrite IH, (IH (merge ∅ m)), merge_empty_l. by rewrite merge_assoc.
Qed.

Lemma merge_all_cons (m : Changes) (ms : list Changes) :
  merge_all (m :: ms) = merge m (merge_all ms).
Proof. unfold merge_all at 1. simpl. by rewrite merge_empty_l, foldl_merge. Qed.

Lemma merge_all_app (ms ms' : list Changes) :
  merge_all (ms ++ ms') = merge (merge_all ms) (merge_all ms').
Proof. unfold merge_all at 1. by rewrite foldl_app, foldl_merge. Qed.

(** Merging group by group is merging all in one. *)
Lemma merge_all_concat (gs : list (list Changes)) :
  merge_all (merge_all <$> gs) = merge_all (concat gs).
Proof.
  induction gs as [|g gs IH]; [done|].
  rewrite fmap_cons, merge_all_cons, IH. simpl concat.
  by rewrite merge_all_app.
Qed.

(** Change-sets that are pairwise disjoint merge to the same change-set
    in any order. *)
Lemma merge_all_perm (ms ms' : list Changes) :
  ms ≡ₚ ms' → pairwise_disjoint ms →
  pairwise_disjoint ms' ∧ merge_all ms = merge_all ms'.
Proof.
  induction 1 as [|x l l' Hp IH|x y l|l l' l'' _ IH1 _ IH2]; simpl.
  - done.
  - intros [Hx Hl]. destruct (IH Hl) as [Hl' Heq]. split.
    + split; [by rewrite <- Hp|done].
    + by rewrite !merge_all_cons, Heq.
  - intros [[Hyx Hy]%Forall_cons [Hx Hl]]. split.
    + split_and!; try done. constructor; [by symmetry|done].
    + rewrite !merge_all_cons. rewrite <- !merge_assoc.
      by rewrite (merge_comm x y) by by symmetry.
  - intros Hl. destruct (IH1 Hl) as [Hl' Heq]. destruct (IH2 Hl') as [Hl'' Heq'].
    split; [done|congruence].
Qed.

Lemma cs_lookup (W : World) (h : handle) (o : StoreObj) :
  W !! h = Some o → cs W h = obj_state o.
Proof. intros Ho. unfold cs, pending. by rewrite Ho. Qed.

Lemma cs_frame (W W' : World) (hs : list handle) :
  (∀ i, i ∈ hs → W' !! i = W !! i) → cs W' <$> hs = cs W <$> hs.
Proof.
  intros Hfr. apply list_fmap_ext. intros i h Hh.
  unfold cs, pending. rewrite Hfr; [done|]. by eapply list_elem_of_lookup_2.
Qed.

Lemma valid_frame (W W' : World) (hs : list handle) :
  length W' = length W → Forall (valid W) hs → Forall (valid W') hs.
Proof.
  intros Hlen Hval. eapply Forall_impl; [done|]. unfold valid. intros. lia.
Qed.

(** The loop of [merge_stores] returns, and the first store then holds
    the change-sets of the others merged in order into its own. *)
Lemma merge_rest_model (rest : list handle) (store : handle) (W : World) :
  store ∉ rest → Forall (valid W) rest → valid W store →
  ∃ W', merge_rest store rest W = (Ret tt, W') ∧
        cs W' store = foldl merge (cs W store) (cs W <$> rest).
Proof.
  revert W. induction rest as [|other rest IH]; intros W Hnin Hrest Hstore.
  - simpl. eauto.
  - apply not_elem_of_cons in Hnin as [Hne Hnin].
    apply Forall_cons in Hrest as [Hother Hrest].
    destruct (lookup_lt_is_Some_2 W other Hother) as [oo Hoo].
    destruct (lookup_lt_is_Some_2 W store Hstore) as [os Hos].
    simpl. unfold bind at 1. unfold call_change_set_bytes. rewrite Hoo.
    unfold bind at 1. unfold call_merge. rewrite Hos. simpl.
    set (W1 := <[store := _]> W).
    assert (Hlen : length W1 = length W) by apply length_insert.
    destruct (IH W1) as (W' & HW' & Hcs); try done.
    { by apply (valid_frame W). }
    { unfold valid. by rewrite Hlen. }
    exists W'. split; [done|]. rewrite Hcs. f_equal.
    + unfold W1. erewrite cs_lookup by by apply list_lookup_insert_eq.
      simpl. by rewrite (cs_lookup _ _ _ Hoo), (cs_lookup _ _ _ Hos).
    + apply cs_frame. intros i Hi. unfold W1.
      apply list_lookup_insert_ne. intros ->. done.
Qed.

Lemma merge_stores_model (store : handle) (rest : list handle) (W : World) :
  NoDup (store :: rest) → Forall (valid W) (store :: rest) →
  ∃ W', merge_stores (store :: rest) W = (Ret store, W') ∧
        cs W' store = merge_all (cs W <$> store :: rest).
Proof.
  intros [Hnin _]%NoDup_cons [Hstore Hrest]%Forall_cons.
  destruct (merge_rest_model rest store W) as (W' & HW' & Hcs); try done.
  exists W'. split; [unfold merge_stores, bind; by rewrite HW'|].
  by rewrite Hcs, fmap_cons, merge_all_cons, foldl_merge.
Qed.

(** One level: every group is merged into its first store. *)
Lemma level_model (groups : list (list handle)) (W : World) :
  NoDup (concat groups) → Forall (valid W) (concat groups) →
  Forall (λ g, g ≠ []) groups →
  ∃ hs W', mapM merge_stores groups W = (Ret hs, W') ∧
           Forall2 (λ g h, head g = Some h) groups hs ∧
           cs W' <$> hs = (λ g, merge_all (cs W <$> g)) <$> groups.
Proof.
  revert W. induction groups as [|g groups IH]; intros W Hnd Hval Hne.
  - exists [], W. split_and!; done.
  - apply Forall_cons in Hne as [Hg Hne].
    destruct g as [|store rest]; [done|].
    change (concat ((store :: rest) :: groups))
      with ((store :: rest) ++ concat groups) in Hnd, Hval.
    apply NoDup_app in Hnd as (Hndg & Hdisj & Hndgs).
    apply Forall_app in Hval as [Hvalg Hvalgs].
    destruct (merge_stores_model store rest W) as (W1 & HW1 & Hcs1); try done.
    apply merge_stores_frame in HW1 as Hfr1. destruct Hfr1 as (Hlen1 & Hfr1 & _).
    destruct (IH W1) as (hs & W2 & HW2 & Hheads & Hcs2); try done.
    { by apply (valid_frame W). }
    apply mapM_merge_stores_frame in HW2 as Hfr2.
    destruct Hfr2 as (Hlen2 & Hfr2 & _).
    exists (store :: hs), W2. split_and!.
    + rewrite mapM_cons. unfold bind at 1. rewrite HW1.
      unfold bind at 1. by rewrite HW2.
    + by constructor.
    + rewrite (fmap_cons (cs W2)), (fmap_cons (λ g, merge_all (cs W <$> g))).
      f_equal.
      * rewrite <- Hcs1. unfold cs, pending. rewrite Hfr2; [done|].
        apply Hdisj. by left.
      * rewrite Hcs2. apply list_fmap_ext. intros i g Hg'. f_equal.
        apply cs_frame. intros j Hj. apply Hfr1. intros Hjg.
        apply (Hdisj j Hjg). apply (elem_of_concat j g); [done|].
        by eapply list_elem_of_lookup_2.
Qed.

Lemma heads_sublist (groups : list (list handle)) (hs : list handle) :
  Forall2 (λ g h, head g = Some h) groups hs → hs `sublist_of` concat groups.
Proof.
  induction 1 as [|g h groups hs Hh _ IH]; [done|].
  destruct g as [|x g]; simplify_eq/=.
  constructor. by apply sublist_inserts_l.
Qed.

(** With a branching factor of at least two the tree reduction of
    distinct stores returns, and the store it returns holds the
    change-sets of all of them, merged in the order of the sequence. *)
Lemma tree_model (fuel k : nat) (l : list handle) (W : World) :
  (2 ≤ k)%nat → l ≠ [] → NoDup l → Forall (valid W) l → (length l ≤ fuel)%nat →
  ∃ h W', tree_reduce fuel merge_stores k l W = (Ret h, W') ∧
          valid W' h ∧ cs W' h = merge_all (cs W <$> l).
Proof.
  intros Hk. revert l W.
  induction fuel as [|fuel IH]; intros l W Hne Hnd Hval Hlen.
  { destruct l; [done|simpl in Hlen; lia]. }
  destruct l as [|x [|y l]]; [done| |].
  - exists x, W. split_and!; [done|by apply Forall_inv in Hval|].
    by rewrite fmap_cons, merge_all_cons, merge_empty_r.
  - destruct k as [|k]; [lia|].
    set (items := x :: y :: l) in *.
    assert (Hcat : concat (chunks (S k) items) = items)
      by (apply chunks_concat; lia).
    destruct (level_model (chunks (S k) items) W) as (hs & W1 & HW1 & Hheads & Hcs1).
    { by rewrite Hcat. }
    { by rewrite Hcat. }
    { apply chunks_upto_nonempty. lia. }
    apply mapM_merge_stores_frame in HW1 as Hfr1. destruct Hfr1 as (Hlen1 & _ & _).
    apply heads_sublist in Hheads as Hsub. rewrite Hcat in Hsub.
    apply Forall2_length in Hheads as Hlenhs.
    destruct (IH hs W1) as (h & W' & HW' & Hvalh & Hcs').
    + intros ->. simpl in Hlenhs.
      pose proof (chunks_length_pos (S k) items Hne). lia.
    + by eapply sublist_NoDup.
    + apply Forall_forall. intros i Hi.
      eapply elem_of_sublist in Hi; [|done].
      rewrite Forall_forall in Hval. unfold valid. rewrite Hlen1. by apply Hval.
    + assert (Hlt : (length (chunks (S k) items) < length items)%nat).
      { apply chunks_length_lt; [done|]. unfold items. simpl. lia. }
      rewrite <- Hlenhs. lia.
    + exists h, W'. split_and!; try done.
      * unfold items. rewrite tree_reduce_step. fold items.
        unfold bind. by rewrite HW1.
      * rewrite Hcs', Hcs1.
        change ((λ g, merge_all (cs W <$> g)) <$> chunks (S k) items)
          with (merge_all ∘ fmap (cs W) <$> chunks (S k) items).
        rewrite (list_fmap_compose (fmap (cs W)) merge_all).
        rewrite merge_all_concat. rewrite <- concat_map.
        by rewrite Hcat.
Qed.

(** C2: merging is associative, it is commutative on change-sets that
    write disjoint locations, and the empty change-set is its identity.
    Hence, for distinct stores whose change-sets are pairwise disjoint:
    [merge_stores] on the stores in any order, and the tree reduction of
    them in any order and with any branching factor from two on, all
    return a store with one and the same content, the merge of all the
    change-sets. *)
Theorem merge_order_and_grouping_irrelevant :
  (∀ a b c : Changes, merge (merge a b) c = merge a (merge b c)) ∧
  (∀ a b : Changes, a ##ₘ b → merge a b = merge b a) ∧
  (∀ a : Changes, merge a ∅ = a ∧ merge ∅ a = a) ∧
  (∀ (W : World) (l1 l2 : list handle),
     l1 ≠ [] → NoDup l1 → Forall (valid W) l1 → l1 ≡ₚ l2 →
     pairwise_disjoint (cs W <$> l1) →
     let all := merge_all (cs W <$> l1) in
     (∃ h1 W1 h2 W2,
        merge_stores l1 W = (Ret h1, W1) ∧ merge_stores l2 W = (Ret h2, W2) ∧
        pending W1 h1 = Some all ∧ pending W2 h2 = Some all) ∧
     (∀ k1 k2 : nat, (2 ≤ k1)%nat → (2 ≤ k2)%nat →
        ∃ h1 W1 h2 W2,
          tree_reduce (length l1) merge_stores k1 l1 W = (Ret h1, W1) ∧
          tree_reduce (length l2) merge_stores k2 l2 W = (Ret h2, W2) ∧
          pending W1 h1 = Some all ∧ pending W2 h2 = Some all)).
Proof.
  split_and!.
  - apply merge_assoc.
  - apply merge_comm.
  - intros a. split; [apply merge_empty_r|apply merge_empty_l].
  - intros W l1 l2 Hne Hnd Hval Hperm Hdis all.
    assert (Hne2 : l2 ≠ []).
    { intros ->. by apply Permutation_nil_r in Hperm. }
    assert (Hnd2 : NoDup l2) by by rewrite <- Hperm.
    assert (Hval2 : Forall (valid W) l2) by by rewrite <- Hperm.
    assert (Hall2 : merge_all (cs W <$> l2) = all).
    { symmetry. apply merge_all_perm; [by apply fmap_Permutation|done]. }
    assert (Hpend : ∀ W' h, valid W' h → pending W' h = Some (cs W' h)).
    { intros W' h Hh. unfold cs, pending.
      destruct (lookup_lt_is_Some_2 W' h Hh) as [o ->]. done. }
    split.
    + destruct l1 as [|s1 r1]; [done|]. destruct l2 as [|s2 r2]; [done|].
      destruct (merge_stores_model s1 r1 W Hnd Hval) as (W1 & HW1 & Hcs1).
      destruct (merge_stores_model s2 r2 W Hnd2 Hval2) as (W2 & HW2 & Hcs2).
      apply merge_stores_frame in HW1 as Hf1. destruct Hf1 as (Hl1 & _ & _).
      apply merge_stores_frame in HW2 as Hf2. destruct Hf2 as (Hl2 & _ & _).
      exists s1, W1, s2, W2. split_and!; try done.
      * rewrite Hpend, Hcs1; [done|]. unfold valid. rewrite Hl1.
        by apply Forall_inv in Hval.
      * rewrite Hpend, Hcs2, Hall2; [done|]. unfold valid. rewrite Hl2.
        by apply Forall_inv in Hval2.
    + intros k1 k2 Hk1 Hk2.
      destruct (tree_model (length l1) k1 l1 W) as (h1 & W1 & HW1 & Hv1 & Hcs1);
        try done.
      destruct (tree_model (length l2) k2 l2 W) as (h2 & W2 & HW2 & Hv2 & Hcs2);
        try done.
      exists h1, W1, h2, W2. split_and!; try done.
      * by rewrite Hpend, Hcs1.
      * by rewrite Hpend, Hcs2, Hall2.
Qed.

End MergeLaws.

(** * The writer on concrete datasets *)

Module Examples.
Import ChangeSets Scenario.

#[local] Existing Instance store_model.

(** The three groupings of six items by two, by four and by one group. *)
Example chunks_of_six :
  chunks 2 [1; 2; 3; 4; 5; 6] = [[1; 2]; [3; 4]; [5; 6]] ∧
  chunks 4 [1; 2; 3; 4; 5; 6] = [[1; 2; 3; 4]; [5; 6]] ∧
  chunks 6 [1; 2; 3; 4; 5; 6] = [[1; 2; 3; 4; 5; 6]].
Proof. done. Qed.

(** The classification of the three variables. *)
Example declared_lists :
  writer (declared ds) =
    Some {| sources := [temp];
            targets := [{| array_store := 0; array_path := "temp" |}];
            regions := [None];
            eager_sources := [lat; lon];
            eager_targets := [{| array_store := 0; array_path := "lat" |};
                              {| array_store := 0; array_path := "lon" |}];
            eager_regions := [None; Some []] |} ∧
  _initialized (declared ds) = true.
Proof. done. Qed.

(** End to end: six chunk tasks on six stores of their own, a reduction
    by groups of two, and one [merge] call on the canonical store, which
    ends with the three variables. *)
Example write_lazy_six_chunks :
  let r := write_lazy (eager_done ds) (Some 2%Z) (W2 ds) in
  r.1.1 = Ret tt ∧ length r.2 = 7 ∧
  (length ∘ merge_calls <$> r.2) = [1; 3; 0; 1; 0; 1; 0] ∧
  (∃ o, r.2 !! 0 = Some o ∧
        obj_state o =
          list_to_map [(("lat", 0), 10%Z); (("lon", 0), 20%Z); (("lon", 1), 21%Z);
                       (("temp", 0), 1%Z); (("temp", 1), 2%Z); (("temp", 2), 3%Z);
                       (("temp", 3), 4%Z); (("temp", 4), 5%Z); (("temp", 5), 6%Z)]).
Proof.
  cbv zeta. split_and!; [reflexivity..|].
  eexists. split; reflexivity.
Qed.

(** A branching factor of one makes no progress. *)
Example write_lazy_split_every_one :
  (write_lazy (eager_done ds) (Some 1%Z) (W2 ds)).1.1 = Diverge.
Proof. reflexivity. Qed.

(** A constructor call with [_initialized=True]: the write phases do not
    raise [ValueError] then, they miss the [writer] attribute. *)
Example initialized_by_hand :
  ∃ self, XarrayDatasetWriter_new ds (IcechunkStoreRef 0) true = inr self ∧
          write_eager self W0 = (Raise no_writer, self, W0).
Proof. eexists. split; reflexivity. Qed.

(** The claim of C3 fails on a new writer: the exception that
    [write_eager] and [write_lazy] raise there is a [ValueError]; its
    class is not [NotInitializedError]. *)
Lemma write_before_metadata_is_ValueError :
  undeclared true (fresh ds) ∧
  ∃ e, write_eager (fresh ds) W0 = (Raise e, fresh ds, W0) ∧
       write_lazy (fresh ds) None W0 = (Raise e, fresh ds, W0) ∧
       exn_class e = "ValueError" ∧
       exn_class e ≠ "NotInitializedError".
Proof.
  split; [by apply (@undeclared_new store_model true ds (IcechunkStoreRef 0))|].
  exists not_initialized. by split_and!.
Qed.

Lemma write_before_metadata_raises_witness :
  write_eager (fresh ds) W0 = (Raise not_initialized, fresh ds, W0) ∧
  write_lazy (fresh ds) (Some 2%Z) W0 = (Raise not_initialized, fresh ds, W0) ∧
  not_initialized = ValueError "Please call `write_metadata` first.".
Proof.
  apply (write_before_metadata_raises true (fresh ds) (Some 2%Z) W0).
  apply (@undeclared_new store_model true ds (IcechunkStoreRef 0)). reflexivity.
Defined.

Lemma write_lazy_no_deferred_noop_witness :
  write_lazy (eager_done in_memory) None (W2 in_memory)
  = (Ret tt, eager_done in_memory, W2 in_memory).
Proof.
  apply (write_lazy_no_deferred_noop (eager_done in_memory)
           {| sources := []; targets := []; regions := [];
              eager_sources := []; eager_targets := []; eager_regions := [] |});
    reflexivity.
Defined.

Lemma write_eager_idempotent_witness :
  (∃ w', writer (eager_done ds) = Some w' ∧
         eager_sources w' = [] ∧ eager_targets w' = [] ∧ eager_regions w' = []) ∧
  write_eager (eager_done ds) (W2 ds) = (Ret tt, eager_done ds, W2 ds).
Proof.
  apply (write_eager_idempotent (declared ds) (eager_done ds) (W1 ds) (W2 ds)).
  reflexivity.
Defined.

Lemma write_lazy_failure_keeps_store_witness :
  ∃ W', write_lazy broken_self None W0
        = (Raise failed_chunk, set_writer broken_self (synced broken_writer), W') ∧
        W' !! 0 = Some {| obj_state := ∅; merge_calls := [] |}.
Proof.
  refine (proj2 (write_lazy_failure_keeps_store broken_self broken_writer
                   (synced broken_writer)
                   [broken_chunk 0 (Some 1%Z); broken_chunk 1 None;
                    broken_chunk 2 (Some 3%Z)]
                   None W0 {| obj_state := ∅; merge_calls := [] |} _ _ _ _ _)
            eq_refl
            [broken_chunk 0 (Some 1%Z)] (broken_chunk 1 None)
            [broken_chunk 2 (Some 3%Z)] failed_chunk _ _ _);
    try reflexivity.
  - discriminate.
  - constructor; [|constructor].
    exists {| obj_state := ∅; merge_calls := [] |}, {[("temp", 0) := 1%Z]}.
    split; reflexivity.
  - exists {| obj_state := ∅; merge_calls := [] |}. split; reflexivity.
Defined.

Lemma write_lazy_merges_once_witness :
  ∃ stored w' merged Wr (m c1 : StoreObj) s,
    sync temp_writer = inr (stored, w') ∧
    stateful_store_reduce stored extract_stores merge_stores (Some 2%Z) (W2 ds)
      = (Ret merged, Wr) ∧
    Wr !! merged = Some m ∧
    Wr !! 0 = Some c1 ∧
    store_merge (obj_state c1) (change_set_bytes (obj_state m)) = (None, s) ∧
    (write_lazy (eager_done ds) (Some 2%Z) (W2 ds)).2 =
      <[0 := {| obj_state := s;
                merge_calls := merge_calls c1 ++ [change_set_bytes (obj_state m)] |}]>
        Wr ∧
    (in_process = false →
     merged ≠ 0 ∧ c1 = canonical_before ∧
     merge_calls <$> (write_lazy (eager_done ds) (Some 2%Z) (W2 ds)).2 !! 0 =
       Some (merge_calls canonical_before ++ [change_set_bytes (obj_state m)])).
Proof.
  apply (write_lazy_merges_once (eager_done ds)
           (write_lazy (eager_done ds) (Some 2%Z) (W2 ds)).1.2
           temp_writer (Some 2%Z) (W2 ds)
           (write_lazy (eager_done ds) (Some 2%Z) (W2 ds)).2
           canonical_before);
    [reflexivity|reflexivity|discriminate|reflexivity|reflexivity].
Defined.

(** C5 on the three variables of [ds], with dask: [temp], the dask
    collection, is deferred, and its six chunks are what [sync] hands on;
    [lat] and [lon] are eager. *)
Lemma add_partitions_tasks_witness :
  deferred_tasks (add_all true three_tasks LazyArrayWriter_init)
    = [(temp, {| array_store := 0; array_path := "temp" |}, None)] ∧
  eager_tasks (add_all true three_tasks LazyArrayWriter_init)
    = [(lat, {| array_store := 0; array_path := "lat" |}, None);
       (lon, {| array_store := 0; array_path := "lon" |}, Some [])] ∧
  sync (add_all true three_tasks LazyArrayWriter_init)
    = inr ([temp_chunk 0 1; temp_chunk 1 2; temp_chunk 2 3;
            temp_chunk 3 4; temp_chunk 4 5; temp_chunk 5 6],
           synced (add_all true three_tasks LazyArrayWriter_init)).
Proof.
  destruct (add_partitions_tasks true three_tasks) as (_ & Hd & He & _ & _ & _ & Hs).
  split_and!; [exact Hd|exact He|exact Hs].
Defined.

Lemma merge_order_and_grouping_irrelevant_witness :
  let all := merge_all (cs W3 <$> [0; 1; 2]) in
  ∃ h1 Wa h2 Wb,
    tree_reduce 3 merge_stores 2 [0; 1; 2] W3 = (Ret h1, Wa) ∧
    tree_reduce 3 merge_stores 3 [2; 0; 1] W3 = (Ret h2, Wb) ∧
    pending Wa h1 = Some all ∧ pending Wb h2 = Some all.
Proof.
  destruct MergeLaws.merge_order_and_grouping_irrelevant as (_ & _ & _ & Hred).
  destruct (Hred W3 [0; 1; 2] [2; 0; 1]) as [_ Htree].
  - discriminate.
  - by apply (bool_decide_unpack _).
  - repeat constructor; unfold valid; simpl; lia.
  - symmetry. apply (Permutation_cons_append [0; 1] 2).
  - change (pairwise_disjoint
              [{[("a", 0) := 1%Z]}; {[("a", 1) := 2%Z]}; {[("b", 0) := 3%Z]}]).
    simpl.
    repeat first [exact I | apply Forall_nil_2 | apply Forall_cons_2 | split];
      by apply map_disjoint_singleton_l_2.
  - apply (Htree 2 3); lia.
Defined.

End Examples.

(** * The lazy phase with the chunk tasks run in process *)

Module InProcessExamples.
Import ChangeSets InProcess.

#[local] Existing Instance threaded_model.

(** The claim of C1 fails when the chunk tasks run in process: the second
    of the three chunks of [broken] fails, [write_lazy] raises, and the
    canonical store, empty before the call, holds the first chunk. *)
Lemma write_lazy_failure_changes_store :
  in_process = true ∧
  canonical_only !! 0 = Some {| obj_state := ∅; merge_calls := [] |} ∧
  ∃ W', write_lazy failing_self None canonical_only
        = (Raise failed_chunk, set_writer failing_self (synced failing_writer), W') ∧
        W' !! 0 = Some {| obj_state := {[("temp", 0) := 1%Z]}; merge_calls := [] |} ∧
        (W' !! 0 ≫= λ o, obj_state o !! ("temp", 0)) = Some 1%Z ∧
        (canonical_only !! 0 ≫= λ o, obj_state o !! ("temp", 0)) = None ∧
        W' !! 0 ≠ canonical_only !! 0.
Proof.
  split_and!; [reflexivity..|].
  eexists. split_and!; [reflexivity..|].
  intros Heq.
  apply (f_equal (λ x, x ≫= λ o, obj_state o !! ("temp", 0))) in Heq.
  discriminate Heq.
Qed.

(** The claim of C4 fails when the chunk tasks run in process: the six
    chunk tasks of [temp] yield the canonical store six times, the
    reduction by groups of two merges it into itself five times and
    returns it, and with the call at the end of [write_lazy] the canonical
    store has received six [merge] calls. *)
Lemma write_lazy_merges_six_times :
  in_process = true ∧
  after_eager.1.1 = Ret tt ∧
  store after_eager.1.2 = 0 ∧
  (length ∘ merge_calls <$> after_eager.2) = [0] ∧
  (∃ w stored w',
     writer after_eager.1.2 = Some w ∧
     sync w = inr (stored, w') ∧
     length stored = 6 ∧
     (stateful_store_reduce stored extract_stores merge_stores (Some 2%Z)
        after_eager.2).1 = Ret 0 ∧
     (length ∘ merge_calls
        <$> (stateful_store_reduce stored extract_stores merge_stores (Some 2%Z)
               after_eager.2).2) = [5]) ∧
  (write_lazy after_eager.1.2 (Some 2%Z) after_eager.2).1.1 = Ret tt ∧
  (length ∘ merge_calls
     <$> (write_lazy after_eager.1.2 (Some 2%Z) after_eager.2).2) = [6].
Proof.
  split_and!; try reflexivity.
  do 3 eexists. split_and!; reflexivity.
Qed.

End InProcessExamples.

(** * More on the module's functions *)

Section MergeStoresFacts.
Context `{External}.

Lemma bytes_of_insert_ne (W : World) (i h : handle) (o : StoreObj) :
  i ≠ h → bytes_of (<[i := o]> W) h = bytes_of W h.
Proof. intros Hne. unfold bytes_of. by rewrite list_lookup_insert_ne. Qed.

Lemma bytes_of_frame (W : World) (store : handle) (o : StoreObj)
    (rest : list handle) (bs : list ChangeSet) :
  store ∉ rest →
  Forall2 (λ h b, bytes_of W h = Some b) rest bs →
  Forall2 (λ h b, bytes_of (<[store := o]> W) h = Some b) rest bs.
Proof.
  intros Hnin Hbs. induction Hbs as [|h b rest bs Hh Hbs IH]; constructor.
  - apply not_elem_of_cons in Hnin as [Hne _]. by rewrite bytes_of_insert_ne.
  - apply IH. by apply not_elem_of_cons in Hnin as [_ ?].
Qed.

Lemma merge_rest_merge_seq (rest : list handle) (store : handle) (W : World)
    (o : StoreObj) (bs : list ChangeSet) :
  store ∉ rest →
  W !! store = Some o →
  Forall2 (λ h b, bytes_of W h = Some b) rest bs →
  merge_rest store rest W =
    match merge_seq (obj_state o) bs with
    | (err, s, called) =>
        (match err with None => Ret tt | Some e => Raise e end,
         <[store := {| obj_state := s; merge_calls := merge_calls o ++ called |}]> W)
    end.
Proof.
  revert W o bs. induction rest as [|other rest IH]; intros W o bs Hnin Ho Hbs.
  - apply Forall2_nil_inv_l in Hbs as ->.
    simpl. unfold ret. f_equal. rewrite app_nil_r. symmetry.
    apply list_insert_id. by destruct o.
  - apply Forall2_cons_inv_l in Hbs as (b & bs' & Hb & Hbs & ->).
    apply not_elem_of_cons in Hnin as [Hne Hnin].
    simpl. unfold bind at 1, call_change_set_bytes.
    unfold bytes_of in Hb.
    destruct (W !! other) as [oo|] eqn:Hoo; [|done]. simplify_eq/=.
    unfold bind at 1, call_merge. rewrite Ho.
    destruct (store_merge (obj_state o) (change_set_bytes (obj_state oo)))
      as [[e|] s'] eqn:Hm; [done|].
    set (o1 := {| obj_state := s'; merge_calls := merge_calls o ++ _ |}).
    rewrite (IH (<[store := o1]> W) o1 bs'); try done.
    + simpl. destruct (merge_seq s' bs') as [[err s''] called].
      rewrite list_insert_insert_eq. by rewrite <- app_assoc.
    + apply list_lookup_insert_eq. by eapply lookup_lt_Some.
    + by apply bytes_of_frame.
Qed.

(** X1: [merge_stores] with no store raises [ValueError] and touches
    nothing. Given a first store that is not listed again, it merges the
    change-sets of the others, as they are when it is called, into the
    first one, in order, and stops at the first [merge] that raises: it
    returns the first store, or raises that exception; the first store
    ends in the state of [merge_seq] with exactly the calls made added to
    its log, and every other store is as it was. *)
Theorem merge_stores_merges_into_first (W : World) :
  merge_stores [] W =
    (Raise (ValueError "not enough values to unpack (expected at least 1, got 0)"), W) ∧
  ∀ (store : handle) (rest : list handle) (o : StoreObj) (bs : list ChangeSet),
    store ∉ rest →
    W !! store = Some o →
    Forall2 (λ h b, bytes_of W h = Some b) rest bs →
    merge_stores (store :: rest) W =
      match merge_seq (obj_state o) bs with
      | (err, s, called) =>
          (match err with None => Ret store | Some e => Raise e end,
           <[store := {| obj_state := s; merge_calls := merge_calls o ++ called |}]> W)
      end.
Proof.
  split; [done|]. intros store rest o bs Hnin Ho Hbs.
  unfold merge_stores, bind.
  rewrite (merge_rest_merge_seq rest store W o bs Hnin Ho Hbs).
  by destruct (merge_seq (obj_state o) bs) as [[[e|] s] called].
Qed.

End MergeStoresFacts.

Section EagerPhaseFacts.
Context `{External}.
Variable has_dask : bool.

Lemma write_each_app (a b : list task) (W : World) :
  write_each (a ++ b) W = bind (write_each a) (λ _, write_each b) W.
Proof.
  revert W. induction a as [|t a IH]; intros W; simpl; [done|].
  unfold bind.
  destruct (call_setitem _ _ _ W) as [[[]|e|] W1]; [|done..].
  rewrite IH. done.
Qed.

Lemma set_writer_same (self : XarrayDatasetWriter) (w : LazyArrayWriter) :
  writer self = Some w → set_writer self w = self.
Proof. destruct self. simpl. by intros ->. Qed.

(** X2: a write that raises ends [write_eager] there. The tasks before
    it have been written, the tasks after it have not, the exception
    propagates, and the writer is as it was: the eager lists are not
    reset. *)
Theorem write_eager_stops_at_failure (self : XarrayDatasetWriter)
    (w : LazyArrayWriter) (pre post : list task) (t : task)
    (W W1 W2 : World) (e : exn) :
  _initialized self = true →
  writer self = Some w →
  lockstep (eager_sources w) (eager_targets w) (eager_regions w) →
  eager_tasks w = pre ++ t :: post →
  write_each pre W = (Ret tt, W1) →
  call_setitem t.1.2 (region_or_ellipsis t.2) t.1.1 W1 = (Raise e, W2) →
  write_eager self W = (Raise e, self, W2).
Proof.
  intros Hinit Hw Hlock Htasks Hpre Hfail.
  unfold write_eager, LazyArrayWriter_write_eager. rewrite Hinit, Hw. simpl.
  rewrite (write_eager_loop_lockstep _ _ _ Hlock).
  fold (eager_tasks w). rewrite Htasks, write_each_app.
  unfold bind at 1. rewrite Hpre. simpl. unfold bind. rewrite Hfail.
  by rewrite set_writer_same.
Qed.

Lemma call_setitem_frame (target : Array) (i : index) (source : Source)
    (W W' : World) r :
  call_setitem target i source W = (r, W') →
  length W' = length W ∧
  merge_calls <$> W' = merge_calls <$> W ∧
  ∀ j, j ≠ array_store target → W' !! j = W !! j.
Proof.
  unfold call_setitem.
  destruct (W !! array_store target) as [o|] eqn:Ho; [|by intros [= <- <-]].
  destruct (array_setitem _ _ _ _) as [err s].
  assert (Hins : ∀ W0 : World,
            W0 = <[array_store target :=
                     {| obj_state := s; merge_calls := merge_calls o |}]> W →
            length W0 = length W ∧ merge_calls <$> W0 = merge_calls <$> W ∧
            ∀ j, j ≠ array_store target → W0 !! j = W !! j).
  { intros W0 ->. split_and!.
    - apply length_insert.
    - rewrite list_fmap_insert. simpl. apply list_insert_id.
      by rewrite list_lookup_fmap, Ho.
    - intros j Hj. by apply list_lookup_insert_ne. }
  destruct err; intros [= <- <-]; by apply Hins.
Qed.

Lemma write_eager_loop_frame (ss : list Source) (ts : list Array)
    (rs : list Region) (W W' : World) r :
  write_eager_loop ss ts rs W = (r, W') →
  length W' = length W ∧
  merge_calls <$> W' = merge_calls <$> W ∧
  ∀ j, j ∉ array_store <$> ts → W' !! j = W !! j.
Proof.
  revert ts rs W. induction ss as [|s ss IH]; intros [|t ts] [|rg rs] W; simpl;
    try (by intros [= <- <-]).
  unfold bind.
  destruct (call_setitem _ _ _ W) as [[[]|e|] W1] eqn:Hset;
    apply call_setitem_frame in Hset as (Hlen & Hlog & Hfr).
  - intros Hloop. apply IH in Hloop as (Hlen' & Hlog' & Hfr').
    split_and!; [congruence..|].
    intros j Hj. apply not_elem_of_cons in Hj as [Hj1 Hj2].
    rewrite Hfr', Hfr; done.
  - intros [= <- <-]. split_and!; try done.
    intros j Hj. apply not_elem_of_cons in Hj as [Hj1 Hj2]. by apply Hfr.
  - intros [= <- <-]. split_and!; try done.
    intros j Hj. apply not_elem_of_cons in Hj as [Hj1 Hj2]. by apply Hfr.
Qed.

Lemma write_eager_untouched (self : XarrayDatasetWriter) (W W' : World) r self' :
  write_eager self W = (r, self', W') →
  length W' = length W ∧
  merge_calls <$> W' = merge_calls <$> W ∧
  (∀ j w, writer self = Some w → j ∉ array_store <$> eager_targets w →
          W' !! j = W !! j) ∧
  dataset self' = dataset self ∧ store self' = store self ∧
  _initialized self' = _initialized self ∧
  (∀ w, writer self = Some w →
        ∃ w', writer self' = Some w' ∧ sources w' = sources w ∧
              targets w' = targets w ∧ regions w' = regions w).
Proof.
  unfold write_eager.
  destruct (_initialized self) eqn:Hinit; simpl;
    [|intros [= <- <- <-]; split_and!; eauto 10].
  destruct (writer self) as [w|] eqn:Hw; simpl;
    [|intros [= <- <- <-]; split_and!; done].
  unfold LazyArrayWriter_write_eager.
  destruct (write_eager_loop _ _ _ W) as [[[]|e|] W1] eqn:Hloop;
    apply write_eager_loop_frame in Hloop as (Hlen & Hlog & Hfr);
    intros [= <- <- <-]; simpl;
    (split_and!; try done;
     [by intros j w0 [= <-]; apply Hfr | intros w0 [= <-]; eauto 10]).
Qed.

(** X3: whatever its outcome, [write_eager] makes no [merge] call and
    creates no store: the world keeps its size and every store its log of
    [merge] calls; a store that is not the store of an eager target is as
    it was. On the writer it changes the eager lists at most: the
    dataset, the store, [_initialized] and the deferred lists are kept. *)
Theorem write_eager_frame (self : XarrayDatasetWriter) (W : World) :
  let r := write_eager self W in
  length r.2 = length W ∧
  merge_calls <$> r.2 = merge_calls <$> W ∧
  (∀ j w, writer self = Some w → j ∉ array_store <$> eager_targets w →
          r.2 !! j = W !! j) ∧
  dataset r.1.2 = dataset self ∧ store r.1.2 = store self ∧
  _initialized r.1.2 = _initialized self ∧
  (∀ w, writer self = Some w →
        ∃ w', writer r.1.2 = Some w' ∧ sources w' = sources w ∧
              targets w' = targets w ∧ regions w' = regions w).
Proof.
  cbv zeta. destruct (write_eager self W) as [[r self'] W'] eqn:Hwe.
  by apply write_eager_untouched in Hwe.
Qed.

Lemma built_lockstep (w : LazyArrayWriter) :
  built has_dask w →
  lockstep (sources w) (targets w) (regions w) ∧
  lockstep (eager_sources w) (eager_targets w) (eager_regions w).
Proof.
  induction 1 as [|w s t r _ [IHd IHe]|w W r w' W' _ [IHd IHe] Hwe
                 |w stored w' _ [IHd IHe] Hsync].
  - done.
  - destruct (add_spec has_dask w s t r IHd IHe) as (? & ? & _). done.
  - revert Hwe. unfold LazyArrayWriter_write_eager.
    destruct (write_eager_loop _ _ _ W) as [[[]|e|] W1]; intros [= <- <- <-];
      done.
  - revert Hsync. unfold sync.
    destruct (delayed_store _ _ _); intros [= <- <-]; done.
Qed.

(** X4: the methods of [LazyArrayWriter] keep its lists in step: on a
    writer made from a new one by [add], [write_eager] and [sync], the
    three deferred lists have one length and so have the three eager
    lists. The strict zip of [write_eager] therefore never raises there:
    [write_eager] is the sequence of the writes of the eager tasks, and
    raises only what a write raises. *)
Theorem built_lists_in_step (w : LazyArrayWriter) :
  built has_dask w →
  lockstep (sources w) (targets w) (regions w) ∧
  lockstep (eager_sources w) (eager_targets w) (eager_regions w) ∧
  (∀ W, LazyArrayWriter_write_eager w W =
        finish_eager w (write_each (eager_tasks w) W)) ∧
  sync w = inr (flat_map delayed_of (deferred_tasks w), synced w).
Proof.
  intros Hb. destruct (built_lockstep w Hb) as [Hd He]. split_and!; try done.
  - intros W. unfold LazyArrayWriter_write_eager.
    by rewrite (write_eager_loop_lockstep _ _ _ He).
  - unfold sync. by rewrite (delayed_store_lockstep _ _ _ Hd).
Qed.

Lemma add_all_built (tasks : list task) (w : LazyArrayWriter) :
  built has_dask w → built has_dask (add_all has_dask tasks w).
Proof.
  revert w. induction tasks as [|t tasks IH]; intros w Hb; [done|].
  unfold add_all. simpl. apply IH. by constructor.
Qed.

(** The arrays of the two target lists all belong to [h]. *)
Definition targets_in (h : handle) (w : LazyArrayWriter) : Prop :=
  Forall (λ a, array_store a = h) (targets w) ∧
  Forall (λ a, array_store a = h) (eager_targets w).

Lemma add_variables_targets_in (h : handle)
    (vars : list (Source * string * Region)) (w : LazyArrayWriter) :
  targets_in h w → targets_in h (add_variables has_dask h vars w).
Proof.
  revert w. induction vars as [|v vars IH]; intros w Hw; [done|].
  unfold add_variables. simpl. apply IH. destruct Hw as [Hd He].
  unfold add, targets_in. destruct (is_chunked_array has_dask v.1.1); simpl;
    split; try done; apply Forall_app; split; try done; by constructor.
Qed.

Lemma write_metadata_frame (self : XarrayDatasetWriter) (args : MetadataArgs)
    (W W' : World) r self' :
  write_metadata has_dask self args W = (r, self', W') →
  length W' = length W ∧
  merge_calls <$> W' = merge_calls <$> W ∧
  (∀ j, j ≠ store self → W' !! j = W !! j) ∧
  dataset self' = dataset self ∧ store self' = store self.
Proof.
  unfold write_metadata.
  destruct (W !! store self) as [o|] eqn:Ho; [|by intros [= <- <- <-]].
  assert (Hins : ∀ s, let W0 := <[store self := set_state s o]> W in
            length W0 = length W ∧ merge_calls <$> W0 = merge_calls <$> W ∧
            ∀ j, j ≠ store self → W0 !! j = W !! j).
  { intros s. cbv zeta. split_and!.
    - apply length_insert.
    - rewrite list_fmap_insert. simpl. apply list_insert_id.
      by rewrite list_lookup_fmap, Ho.
    - intros j Hj. by apply list_lookup_insert_ne. }
  destruct (open_and_validate _ _ _) as [[e|[]] s1].
  { intros [= <- <- <-]. destruct (Hins s1) as (? & ? & ?). done. }
  destruct (dump_to_store _ _ _) as [[vars [e|]] s2]; intros [= <- <- <-];
    destruct (Hins s2) as (? & ? & ?); done.
Qed.

(** X5: [write_metadata] makes no [merge] call and creates no store, and
    no store but [self.store] changes. When the store is opened and the
    dataset validated, the variables that [dump_to_store] hands to [add]
    are the tasks of the new [LazyArrayWriter], whether [dump_to_store]
    then returns or raises: writes to arrays of [self.store], the dask
    collections among them (when dask is there) deferred and the others
    eager, in the order they were handed over; the task lists of an
    earlier declaration are gone. The writer is initialized when
    [dump_to_store] returned, and [_initialized] is as before whenever
    [write_metadata] raises. *)
Theorem write_metadata_declares (self : XarrayDatasetWriter)
    (args : MetadataArgs) (W : World) :
  let r := write_metadata has_dask self args W in
  length r.2 = length W ∧
  merge_calls <$> r.2 = merge_calls <$> W ∧
  (∀ j, j ≠ store self → r.2 !! j = W !! j) ∧
  dataset r.1.2 = dataset self ∧ store r.1.2 = store self ∧
  (∀ o u s1 vars err s2,
     W !! store self = Some o →
     open_and_validate (dataset self) args (obj_state o) = (inr u, s1) →
     dump_to_store (dataset self) args s1 = (vars, err, s2) →
     r.2 = <[store self := set_state s2 o]> W ∧
     r.1.1 = match err with None => Ret tt | Some e => Raise e end ∧
     _initialized r.1.2 =
       match err with None => true | Some _ => _initialized self end ∧
     ∃ w,
       writer r.1.2 = Some w ∧
       w = add_variables has_dask (store self) vars LazyArrayWriter_init ∧
       deferred_tasks w =
         List.filter (λ t, has_dask && is_dask_collection t.1.1)
           (tasks_in (store self) vars) ∧
       eager_tasks w =
         List.filter (λ t, negb (has_dask && is_dask_collection t.1.1))
           (tasks_in (store self) vars)) ∧
  (r.1.1 ≠ Ret tt → _initialized r.1.2 = _initialized self).
Proof.
  cbv zeta.
  destruct (write_metadata has_dask self args W) as [[r self'] W'] eqn:Hmd.
  destruct (write_metadata_frame _ _ _ _ _ _ Hmd) as (Hlen & Hlog & Hfr & Hds & Hst).
  simpl. split_and!; try done.
  - intros o u s1 vars err s2 Ho Hov Hdump. revert Hmd. unfold write_metadata.
    rewrite Ho, Hov, Hdump.
    assert (Hsplit :
      let w := add_variables has_dask (store self) vars LazyArrayWriter_init in
      deferred_tasks w =
        List.filter (λ t, has_dask && is_dask_collection t.1.1)
          (tasks_in (store self) vars) ∧
      eager_tasks w =
        List.filter (λ t, negb (has_dask && is_dask_collection t.1.1))
          (tasks_in (store self) vars)).
    { cbv zeta. rewrite add_variables_add_all. fold (tasks_in (store self) vars).
      destruct (add_all_spec has_dask (tasks_in (store self) vars)
                  LazyArrayWriter_init lockstep_nil lockstep_nil)
        as (_ & _ & Hd & He).
      cbn zeta in Hd, He. rewrite Hd, He.
      by rewrite filter_chunked, filter_not_chunked. }
    destruct Hsplit as [Hd He].
    destruct err as [e|]; intros [= <- <- <-]; simpl;
      (split_and!; try done; eexists; split_and!; [done|done|exact Hd|exact He]).
  - intros Hr. revert Hmd. unfold write_metadata.
    destruct (W !! store self) as [o|]; [|by intros [= <- <- <-]].
    destruct (open_and_validate _ _ _) as [[e|[]] s1]; [by intros [= <- <- <-]|].
    destruct (dump_to_store _ _ _) as [[vars [e|]] s2]; intros [= <- <- <-]; done.
Qed.

Lemma write_metadata_writer (self : XarrayDatasetWriter) (args : MetadataArgs)
    (W W' : World) r self' :
  write_metadata has_dask self args W = (r, self', W') →
  writer self' = writer self ∧ _initialized self' = _initialized self ∨
  ∃ vars, writer self' =
          Some (add_variables has_dask (store self) vars LazyArrayWriter_init).
Proof.
  unfold write_metadata.
  destruct (W !! store self) as [o|]; [|intros [= <- <- <-]; by left].
  destruct (open_and_validate _ _ _) as [[e|[]] s1];
    [intros [= <- <- <-]; by left|].
  destruct (dump_to_store _ _ _) as [[vars [e|]] s2]; intros [= <- <- <-];
    right; eauto.
Qed.

Lemma write_eager_writer (self : XarrayDatasetWriter) (W W' : World) r self' :
  write_eager self W = (r, self', W') →
  _initialized self' = _initialized self ∧
  (self' = self ∨
   ∃ w w', writer self = Some w ∧ writer self' = Some w' ∧
           (w' = w ∨ w' = drained w) ∧
           ∃ r', LazyArrayWriter_write_eager w W = (r', w', W')).
Proof.
  unfold write_eager.
  destruct (_initialized self) eqn:Hinit; simpl; [|intros [= <- <- <-]; eauto].
  destruct (writer self) as [w|] eqn:Hw; [|intros [= <- <- <-]; eauto].
  destruct (LazyArrayWriter_write_eager w W) as [[r' w'] W1] eqn:Hwe.
  intros [= <- <- <-]. split; [done|]. right. exists w, w'.
  split_and!; try done; [|eauto].
  revert Hwe. unfold LazyArrayWriter_write_eager.
  destruct (write_eager_loop _ _ _ W) as [[[]|e|] W2]; intros [= <- <- <-]; eauto.
Qed.

Lemma write_lazy_writer (self : XarrayDatasetWriter) (se : option Z)
    (W W' : World) r self' :
  write_lazy self se W = (r, self', W') →
  dataset self' = dataset self ∧ store self' = store self ∧
  _initialized self' = _initialized self ∧
  (self' = self ∨
   ∃ w stored w', writer self = Some w ∧ sync w = inr (stored, w') ∧
                  writer self' = Some w').
Proof.
  unfold write_lazy.
  destruct (_initialized self) eqn:Hinit; simpl;
    [|intros [= <- <- <-]; split_and!; eauto].
  destruct (writer self) as [w|] eqn:Hw; [|intros [= <- <- <-]; split_and!; eauto].
  destruct (sources w) as [|s0 ss]; [intros [= <- <- <-]; split_and!; eauto|].
  destruct (sync w) as [e|[stored w']] eqn:Hsync;
    [intros [= <- <- <-]; split_and!; eauto|].
  destruct (stateful_store_reduce _ _ _ _ W) as [[merged|e|] W1].
  - destruct (bind _ _ W1) as [r2 W2]. intros [= <- <- <-].
    split_and!; try done. right. eauto 10.
  - intros [= <- <- <-]. split_and!; try done. right. eauto 10.
  - intros [= <- <- <-]. split_and!; try done. right. eauto 10.
Qed.

(** X6: on a writer that the constructor (with the default
    [_initialized]) and the methods have produced, [_initialized] holds
    only if the [writer] attribute is set, and the lists of that writer
    are in step. So, once initialized, [write_eager] neither misses the
    attribute nor trips the strict zip: it is the sequence of the writes
    of the eager tasks. And no method resets [_initialized]. *)
Theorem reached_writer_is_sound (self : XarrayDatasetWriter) :
  reached has_dask self →
  (∀ w, writer self = Some w → built has_dask w) ∧
  (_initialized self = true →
   ∃ w, writer self = Some w ∧
        ∀ W, write_eager self W =
             match finish_eager w (write_each (eager_tasks w) W) with
             | (r, w', W') => (r, set_writer self w', W')
             end) ∧
  (∀ args se W,
     _initialized self = true →
     _initialized (write_metadata has_dask self args W).1.2 = true ∧
     _initialized (write_eager self W).1.2 = true ∧
     _initialized (write_lazy self se W).1.2 = true).
Proof.
  intros Hr.
  assert (Hinv : (∀ w, writer self = Some w → built has_dask w) ∧
                 (_initialized self = true → is_Some (writer self))).
  { induction Hr as [ds st self Hnew|self args W r self' W' _ [IHb IHi] Hmd
                    |self W r self' W' _ [IHb IHi] Hwe
                    |self se W r self' W' _ [IHb IHi] Hwl].
    - destruct st; simplify_eq/=. done.
    - destruct (write_metadata_writer _ _ _ _ _ _ Hmd) as [[Hw Hi]|[vars Hw]].
      + rewrite Hw, Hi. done.
      + rewrite Hw. split; [|eauto]. intros w [= <-].
        rewrite add_variables_add_all. apply add_all_built. constructor.
    - destruct (write_eager_writer _ _ _ _ _ Hwe)
        as [Hi [->|(w & w' & Hw & Hw' & _ & r' & Hle)]]; [done|].
      rewrite Hw', Hi. split; [|eauto]. intros ? [= <-].
      eapply built_write_eager; [by apply IHb|done].
    - destruct (write_lazy_writer _ _ _ _ _ _ Hwl)
        as (_ & _ & Hi & [->|(w & stored & w' & Hw & Hsync & Hw')]); [done|].
      rewrite Hw', Hi. split; [|eauto]. intros ? [= <-].
      eapply built_sync; [by apply IHb|done]. }
  destruct Hinv as [Hb Hi]. split_and!; [done| |].
  - intros Hinit. destruct (Hi Hinit) as [w Hw]. exists w. split; [done|].
    intros W. unfold write_eager. rewrite Hinit, Hw. simpl.
    destruct (built_lockstep w (Hb w Hw)) as [_ He].
    unfold LazyArrayWriter_write_eager.
    rewrite (write_eager_loop_lockstep _ _ _ He). fold (eager_tasks w).
    by destruct (write_each (eager_tasks w) W) as [[[]|e|] W1].
  - intros args se W Hinit. split_and!.
    + destruct (write_metadata has_dask self args W) as [[r self'] W'] eqn:Hmd.
      simpl. revert Hmd. unfold write_metadata.
      destruct (W !! store self) as [o|]; [|by intros [= <- <- <-]].
      destruct (open_and_validate _ _ _) as [[e|[]] s1];
        [by intros [= <- <- <-]|].
      destruct (dump_to_store _ _ _) as [[vars [e|]] s2];
        intros [= <- <- <-]; done.
    + destruct (write_eager self W) as [[r self'] W'] eqn:Hwe. simpl.
      apply write_eager_writer in Hwe as [-> _]. done.
    + destruct (write_lazy self se W) as [[r self'] W'] eqn:Hwl. simpl.
      apply write_lazy_writer in Hwl as (_ & _ & -> & _). done.
Qed.

End EagerPhaseFacts.

Section EntryPointFacts.
Context `{External}.
Variable has_dask : bool.

Lemma call_merge_log (h : handle) (b : ChangeSet) (W W' : World) r :
  call_merge h b W = (r, W') →
  W' = W ∧ W !! h = None ∨
  ∃ o s, W !! h = Some o ∧
         W' = <[h := {| obj_state := s; merge_calls := merge_calls o ++ [b] |}]> W.
Proof.
  unfold call_merge. destruct (W !! h) as [o|]; [|intros [= <- <-]; by left].
  destruct (store_merge _ _) as [[e|] s]; intros [= <- <-]; right; eauto.
Qed.

Lemma same_prefix_length (W W1 : World) :
  (∀ c, (c < length W)%nat → W1 !! c = W !! c) → (length W ≤ length W1)%nat.
Proof.
  intros Hfr. destruct (decide (length W ≤ length W1)%nat) as [|Hlt]; [done|].
  assert (Hc : (length W1 < length W)%nat) by lia.
  specialize (Hfr _ Hc). rewrite lookup_ge_None_2 in Hfr by lia.
  symmetry in Hfr. apply lookup_ge_None_1 in Hfr. lia.
Qed.

Local Ltac same_world :=
  intros [= <- <- <-];
  split_and!; [done | done | intros o Ho; exists o; split; [done | by left]].

(** Out of process. *)
Lemma write_lazy_untouched (self : XarrayDatasetWriter) (se : option Z)
    (W W' : World) r self' :
  in_process = false →
  write_lazy self se W = (r, self', W') →
  (∀ j, (j < length W)%nat → j ≠ store self → W' !! j = W !! j) ∧
  (length W ≤ length W')%nat ∧
  (∀ o, W !! store self = Some o →
        ∃ o', W' !! store self = Some o' ∧
              (merge_calls o' = merge_calls o ∨
               ∃ b, merge_calls o' = merge_calls o ++ [b])).
Proof.
  intros Hp. unfold write_lazy.
  destruct (_initialized self); simpl; [|same_world].
  destruct (writer self) as [w|]; [|same_world].
  destruct (sources w) as [|s0 ss]; [same_world|].
  destruct (sync w) as [e|[stored w']]; [same_world|].
  destruct (stateful_store_reduce _ _ _ _ W) as [[merged|e|] W1] eqn:Hred;
    apply (stateful_store_reduce_frame _ _ _ _ _ Hp) in Hred as [Hfr _];
    pose proof (same_prefix_length _ _ Hfr) as Hlen.
  - unfold bind.
    destruct (call_change_set_bytes merged W1) as [[b|e|] W1'] eqn:Hb;
      apply call_change_set_bytes_world in Hb as ->;
      try (intros [= <- <- <-]; split_and!; [by eauto|done|];
           intros o Ho; exists o; rewrite Hfr by (by eapply lookup_lt_Some);
           eauto).
    destruct (call_merge (store self) b W1) as [r2 W2] eqn:Hm.
    intros [= <- <- <-].
    apply call_merge_log in Hm as [[-> Hnone]|(o1 & s & Ho1 & ->)].
    + split_and!; [by eauto|done|].
      intros o Ho. exists o. rewrite Hfr by (by eapply lookup_lt_Some). eauto.
    + split_and!.
      * intros j Hj Hne. rewrite list_lookup_insert_ne by done. by apply Hfr.
      * by rewrite length_insert.
      * intros o Ho. apply lookup_lt_Some in Ho as Hlt.
        rewrite Hfr in Ho1 by done.
        simplify_eq. eexists. split.
        -- apply list_lookup_insert_eq. lia.
        -- simpl. eauto.
  - intros [= <- <- <-]. split_and!; [by eauto|done|].
    intros o Ho. exists o. rewrite Hfr by (by eapply lookup_lt_Some). eauto.
  - intros [= <- <- <-]. split_and!; [by eauto|done|].
    intros o Ho. exists o. rewrite Hfr by (by eapply lookup_lt_Some). eauto.
Qed.

Lemma sync_targets (w w' : LazyArrayWriter) (stored : list DelayedChunk) :
  sync w = inr (stored, w') →
  ∀ j, j ∈ target_stores stored → j ∈ array_store <$> targets w.
Proof.
  unfold sync.
  destruct (delayed_store _ _ _) as [e|ds] eqn:Hds; [discriminate|].
  intros [= <- <-]. by apply (delayed_store_targets _ _ _ _ Hds).
Qed.

(** In process. *)
Lemma write_lazy_in_process (self : XarrayDatasetWriter) (se : option Z)
    (W W' : World) r self' :
  in_process = true →
  write_lazy self se W = (r, self', W') →
  length W' = length W ∧
  (∀ j, j ≠ store self →
        (∀ w, writer self = Some w → j ∉ array_store <$> targets w) →
        W' !! j = W !! j).
Proof.
  intros Hp. unfold write_lazy.
  destruct (_initialized self); simpl; [|by intros [= <- <- <-]].
  destruct (writer self) as [w|]; [|by intros [= <- <- <-]].
  destruct (sources w) as [|s0 ss]; [by intros [= <- <- <-]|].
  destruct (sync w) as [e|[stored w']] eqn:Hsync; [by intros [= <- <- <-]|].
  pose proof (sync_targets _ _ _ Hsync) as Htg.
  assert (Hoff : ∀ j,
    (∀ w0, Some w = Some w0 → j ∉ array_store <$> targets w0) →
    j ∉ target_stores stored).
  { intros j Hj Hin. by apply (Hj w eq_refl), Htg. }
  destruct (stateful_store_reduce _ _ _ _ W) as [[merged|e|] W1] eqn:Hred;
    apply (stateful_store_reduce_in_process _ _ _ _ _ Hp) in Hred as [Hlen Hfr];
    try (intros [= <- <- <-]; split; [done|]; intros j _ Hj; by apply Hfr, Hoff).
  unfold bind.
  destruct (call_change_set_bytes merged W1) as [[b|e|] W1'] eqn:Hb;
    apply call_change_set_bytes_world in Hb as ->;
    try (intros [= <- <- <-]; split; [done|]; intros j _ Hj; by apply Hfr, Hoff).
  destruct (call_merge (store self) b W1) as [r2 W2] eqn:Hm.
  intros [= <- <- <-].
  apply call_merge_log in Hm as [[-> Hnone]|(o1 & s & Ho1 & ->)].
  - split; [done|]. intros j _ Hj. by apply Hfr, Hoff.
  - split; [by rewrite length_insert|]. intros j Hne Hj.
    rewrite list_lookup_insert_ne by done. by apply Hfr, Hoff.
Qed.

(** X7: whatever its outcome, [write_lazy] leaves every store that
    existed when it was called as it was, other than the canonical one
    and the stores of the deferred targets, and removes no store. When
    the chunk tasks run in process it creates no store either. When they
    run out of process, the stores of the targets are left as they were
    too, what is created are new objects, and the canonical store
    receives no [merge] call or one. On the writer [write_lazy] keeps the
    dataset, the store and [_initialized]. *)
Theorem write_lazy_frame (self : XarrayDatasetWriter) (se : option Z) (W : World) :
  let r := write_lazy self se W in
  (∀ j, (j < length W)%nat → j ≠ store self →
        (∀ w, writer self = Some w → j ∉ array_store <$> targets w) →
        r.2 !! j = W !! j) ∧
  (length W ≤ length r.2)%nat ∧
  (in_process = true → length r.2 = length W) ∧
  (in_process = false →
   (∀ j, (j < length W)%nat → j ≠ store self → r.2 !! j = W !! j) ∧
   (∀ o, W !! store self = Some o →
         ∃ o', r.2 !! store self = Some o' ∧
               (merge_calls o' = merge_calls o ∨
                ∃ b, merge_calls o' = merge_calls o ++ [b]))) ∧
  dataset r.1.2 = dataset self ∧ store r.1.2 = store self ∧
  _initialized r.1.2 = _initialized self.
Proof.
  cbv zeta. destruct (write_lazy self se W) as [[r self'] W'] eqn:Hwl. simpl.
  apply write_lazy_writer in Hwl as Hw. destruct Hw as (? & ? & ? & _).
  destruct in_process eqn:Hp.
  - destruct (write_lazy_in_process _ _ _ _ _ _ Hp Hwl) as [Hlen Hfr].
    split_and!; try done; [by eauto|lia].
  - destruct (write_lazy_untouched _ _ _ _ _ _ Hp Hwl) as (Hfr & Hlen & Hlog).
    split_and!; try done. by eauto.
Qed.

Lemma log_lookup (W W1 : World) (h : handle) (o : StoreObj) :
  merge_calls <$> W1 = merge_calls <$> W → W !! h = Some o →
  ∃ o1, W1 !! h = Some o1 ∧ merge_calls o1 = merge_calls o.
Proof.
  intros Hlog Ho.
  assert (Hl : (merge_calls <$> W1) !! h = Some (merge_calls o))
    by by rewrite Hlog, list_lookup_fmap, Ho.
  rewrite list_lookup_fmap in Hl.
  destruct (W1 !! h) as [o1|]; simplify_eq/=. eauto.
Qed.

Lemma write_metadata_targets_in (self : XarrayDatasetWriter) (args : MetadataArgs)
    (W W' : World) self' :
  write_metadata has_dask self args W = (Ret tt, self', W') →
  _initialized self' = true ∧
  ∃ w, writer self' = Some w ∧ targets_in (store self) w ∧
       (has_dask = false → sources w = []).
Proof.
  intros Hmd. apply write_metadata_ret in Hmd as (Hinit & vars & Hw).
  split; [done|]. eexists. split; [done|]. split.
  - apply add_variables_targets_in. by split.
  - intros ->. rewrite add_variables_add_all.
    by destruct (add_all_no_dask
                   (map (λ v, (v.1.1,
                               {| array_store := store self; array_path := v.1.2 |},
                               v.2)) vars)
                   LazyArrayWriter_init) as (-> & _).
Qed.

Lemma targets_in_other (h j : handle) (w : LazyArrayWriter) :
  targets_in h w → j ≠ h → j ∉ array_store <$> eager_targets w.
Proof.
  intros [_ He] Hj (a & -> & Ha)%list_elem_of_fmap.
  rewrite Forall_forall in He. by apply He in Ha.
Qed.

Lemma targets_in_deferred (h j : handle) (w : LazyArrayWriter) :
  targets_in h w → j ≠ h → j ∉ array_store <$> targets w.
Proof.
  intros [Hd _] Hj (a & -> & Ha)%list_elem_of_fmap.
  rewrite Forall_forall in Hd. by apply Hd in Ha.
Qed.

(** X8: whatever its outcome, [to_icechunk] on a store [h] leaves every
    other store that existed when it was called as it was, and removes
    no store: every array it writes to is an array of [h]. When the chunk
    tasks run in process it creates no store. When they run out of
    process, what it adds to the world are new stores, and on [h] it
    makes no [merge] call or one. *)
Theorem to_icechunk_frame (ds : Dataset) (h : handle) (args : MetadataArgs)
    (se : option Z) (W : World) :
  let r := to_icechunk has_dask ds (IcechunkStoreRef h) args se W in
  (∀ j, (j < length W)%nat → j ≠ h → r.2 !! j = W !! j) ∧
  (length W ≤ length r.2)%nat ∧
  (in_process = true → length r.2 = length W) ∧
  (in_process = false →
   ∀ o, W !! h = Some o →
        ∃ o', r.2 !! h = Some o' ∧
              (merge_calls o' = merge_calls o ∨
               ∃ b, merge_calls o' = merge_calls o ++ [b])).
Proof.
  cbv zeta. unfold to_icechunk. simpl.
  set (self0 := {| dataset := ds; store := h; _initialized := false;
                   writer := None |}).
  destruct (write_metadata has_dask self0 args W) as [[r1 s1] W1] eqn:Hmd.
  destruct (write_metadata_frame _ _ _ _ _ _ _ Hmd)
    as (Hlen1 & Hlog1 & Hfr1 & _ & Hst1).
  assert (Hdone1 :
    (∀ j, (j < length W)%nat → j ≠ h → W1 !! j = W !! j) ∧
    (length W ≤ length W1)%nat ∧
    (in_process = true → length W1 = length W) ∧
    (in_process = false →
     ∀ o, W !! h = Some o →
          ∃ o', W1 !! h = Some o' ∧
                (merge_calls o' = merge_calls o ∨
                 ∃ b, merge_calls o' = merge_calls o ++ [b]))).
  { split_and!; [by eauto|lia|done|]. intros _ o Ho.
    destruct (log_lookup _ _ _ _ Hlog1 Ho) as (o1 & Ho1 & Hl). eauto. }
  destruct r1 as [[]|e|]; [|done..].
  destruct (write_metadata_targets_in _ _ _ _ _ Hmd) as (_ & w & Hw & Htg & _).
  destruct (write_eager s1 W1) as [[r2 s2] W2] eqn:Hwe.
  destruct (write_eager_untouched _ _ _ _ _ Hwe)
    as (Hlen2 & Hlog2 & Hfr2 & _ & Hst2 & _ & Hdef).
  destruct (Hdef w Hw) as (w2 & Hw2 & _ & Htg2 & _).
  assert (Hfr12 : ∀ j, (j < length W)%nat → j ≠ h → W2 !! j = W !! j).
  { intros j Hj Hne. rewrite (Hfr2 j w Hw); [by apply Hfr1|].
    by apply (targets_in_other h). }
  assert (Hdone2 :
    (∀ j, (j < length W)%nat → j ≠ h → W2 !! j = W !! j) ∧
    (length W ≤ length W2)%nat ∧
    (in_process = true → length W2 = length W) ∧
    (in_process = false →
     ∀ o, W !! h = Some o →
          ∃ o', W2 !! h = Some o' ∧
                (merge_calls o' = merge_calls o ∨
                 ∃ b, merge_calls o' = merge_calls o ++ [b]))).
  { split_and!; [done|lia|intros _; congruence|].
    intros _ o Ho.
    destruct (log_lookup _ _ _ _ Hlog1 Ho) as (o1 & Ho1 & Hl1).
    destruct (log_lookup _ _ _ _ Hlog2 Ho1) as (o2 & Ho2 & Hl2).
    exists o2. split; [done|]. left. congruence. }
  destruct r2 as [[]|e|]; [|done..].
  destruct (write_lazy s2 None W2) as [[r3 s3] W3] eqn:Hwl. simpl.
  assert (Hst : store s2 = h) by by rewrite Hst2, Hst1.
  destruct in_process eqn:Hp.
  - destruct (write_lazy_in_process _ _ _ _ _ _ Hp Hwl) as [Hlen3 Hfr3].
    rewrite Hst in Hfr3.
    split_and!; [|lia|intros _; congruence|done].
    intros j Hj Hne. rewrite Hfr3; [by apply Hfr12|done|].
    intros w0 Hw0. rewrite Hw2 in Hw0. injection Hw0 as <-. rewrite Htg2.
    by apply (targets_in_deferred h).
  - destruct (write_lazy_untouched _ _ _ _ _ _ Hp Hwl) as (Hfr3 & Hlen3 & Hlog3).
    rewrite Hst in Hfr3, Hlog3.
    split_and!; [|lia|done|].
    + intros j Hj Hne. rewrite Hfr3; [by apply Hfr12|lia|done].
    + intros _ o Ho.
      destruct (log_lookup _ _ _ _ Hlog1 Ho) as (o1 & Ho1 & Hl1).
      destruct (log_lookup _ _ _ _ Hlog2 Ho1) as (o2 & Ho2 & Hl2).
      destruct (Hlog3 o2 Ho2) as (o3 & Ho3 & Hl3).
      exists o3. split; [done|]. rewrite Hl2, Hl1 in Hl3. done.
Qed.

(** X10: the [split_every] argument of [to_icechunk] has no effect: it is
    not handed to [write_lazy], which reduces with the default branching
    factor. *)
Theorem to_icechunk_ignores_split_every (ds : Dataset) (st : PyObject)
    (args : MetadataArgs) (se se' : option Z) (W : World) :
  to_icechunk has_dask ds st args se W = to_icechunk has_dask ds st args se' W.
Proof. done. Qed.

End EntryPointFacts.

Section NoDaskFacts.
Context `{External}.

(** X9: without dask, [to_icechunk] is [write_metadata] followed, when
    that returns, by [write_eager], and nothing more: its outcome and its
    world are theirs. It makes no [merge] call, creates no store, and
    leaves every store but the one it is given as it was. *)
Theorem to_icechunk_without_dask (ds : Dataset) (h : handle)
    (args : MetadataArgs) (se : option Z) (W : World) :
  let self0 := {| dataset := ds; store := h; _initialized := false;
                  writer := None |} in
  let r := to_icechunk false ds (IcechunkStoreRef h) args se W in
  r = match write_metadata false self0 args W with
      | (Ret _, self1, W1) => ((write_eager self1 W1).1.1, (write_eager self1 W1).2)
      | (Raise e, _, W1) => (Raise e, W1)
      | (Diverge, _, W1) => (Diverge, W1)
      end ∧
  length r.2 = length W ∧
  merge_calls <$> r.2 = merge_calls <$> W ∧
  (∀ j, j ≠ h → r.2 !! j = W !! j).
Proof.
  cbv zeta. unfold to_icechunk. simpl.
  set (self0 := {| dataset := ds; store := h; _initialized := false;
                   writer := None |}).
  destruct (write_metadata false self0 args W) as [[r1 s1] W1] eqn:Hmd.
  destruct (write_metadata_frame _ _ _ _ _ _ _ Hmd)
    as (Hlen1 & Hlog1 & Hfr1 & _ & Hst1).
  simpl in Hfr1.
  destruct r1 as [[]|e|]; [|done..].
  destruct (write_metadata_targets_in _ _ _ _ _ _ Hmd)
    as (Hinit & w & Hw & Htg & Hsrc).
  destruct (write_eager s1 W1) as [[r2 s2] W2] eqn:Hwe.
  destruct (write_eager_untouched _ _ _ _ _ Hwe)
    as (Hlen2 & Hlog2 & Hfr2 & _ & _ & Hinit2 & Hdef).
  destruct (Hdef w Hw) as (w' & Hw' & Hsrc' & _).
  assert (Hall : length W2 = length W ∧
                 merge_calls <$> W2 = merge_calls <$> W ∧
                 ∀ j, j ≠ h → W2 !! j = W !! j).
  { split_and!; [congruence..|]. intros j Hj.
    rewrite (Hfr2 j w Hw); [by apply Hfr1|]. by apply (targets_in_other h). }
  simpl. destruct r2 as [[]|e|]; [|done..].
  rewrite (write_lazy_nil s2 w' None W2); [done|congruence|done|].
  rewrite Hsrc'. by apply Hsrc.
Qed.

End NoDaskFacts.

(** * More runs on concrete datasets *)

Module MoreExamples.
Import ChangeSets Scenario.

#[local] Existing Instance store_model.

(** An in-memory variable whose second chunk cannot be written. *)
Definition torn : source := {| lazy := false; values := [Some 7%Z; None] |}.

Definition lat_task : task :=
  (lat, {| array_store := 0; array_path := "lat" |}, None).

Definition torn_task : task :=
  (torn, {| array_store := 0; array_path := "torn" |}, None).

Definition torn_writer : LazyArrayWriter :=
  add true (add true LazyArrayWriter_init lat lat_task.1.2 None)
      torn torn_task.1.2 None.

Definition torn_self : XarrayDatasetWriter :=
  {| dataset := [(lat, "lat", None); (torn, "torn", None)]; store := 0;
     _initialized := true; writer := Some torn_writer |}.

(** The world after the write of [lat], and after the failed write. *)
Definition after_lat : World := (write_each [lat_task] W0).2.

Definition after_torn : World :=
  (call_setitem torn_task.1.2 (region_or_ellipsis torn_task.2) torn_task.1.1
     after_lat).2.

(** The first chunk of [torn] stays written. *)
Example after_torn_content :
  pending after_torn 0 = Some (list_to_map [(("lat", 0), 10%Z); (("torn", 0), 7%Z)]).
Proof. reflexivity. Qed.

Lemma write_eager_stops_at_failure_witness :
  write_eager torn_self W0 = (Raise failed_chunk, torn_self, after_torn).
Proof.
  apply (write_eager_stops_at_failure torn_self torn_writer
           [lat_task] [] torn_task W0 after_lat after_torn failed_chunk);
    try reflexivity.
  split; reflexivity.
Defined.

Lemma built_lists_in_step_witness :
  lockstep (sources torn_writer) (targets torn_writer) (regions torn_writer) ∧
  lockstep (eager_sources torn_writer) (eager_targets torn_writer)
           (eager_regions torn_writer) ∧
  (∀ W, LazyArrayWriter_write_eager torn_writer W =
        finish_eager torn_writer (write_each (eager_tasks torn_writer) W)) ∧
  sync torn_writer =
    inr (flat_map delayed_of (deferred_tasks torn_writer), synced torn_writer).
Proof.
  apply (built_lists_in_step true torn_writer).
  apply built_add, built_add, built_init.
Defined.

(** X5 on the three variables of [ds], with dask: what [dump_to_store]
    hands over is what the new writer holds, [temp] deferred, [lat] and
    [lon] eager. *)
Lemma write_metadata_declares_witness :
  (write_metadata true (fresh ds) tt W0).1.1 = Ret tt ∧
  _initialized (write_metadata true (fresh ds) tt W0).1.2 = true ∧
  ∃ w, writer (write_metadata true (fresh ds) tt W0).1.2 = Some w ∧
       w = add_variables true 0 ds LazyArrayWriter_init ∧
       deferred_tasks w
         = [(temp, {| array_store := 0; array_path := "temp" |}, None)] ∧
       eager_tasks w
         = [(lat, {| array_store := 0; array_path := "lat" |}, None);
            (lon, {| array_store := 0; array_path := "lon" |}, Some [])].
Proof.
  pose proof (write_metadata_declares true (fresh ds) tt W0) as Hmd.
  cbv zeta in Hmd. destruct Hmd as (_ & _ & _ & _ & _ & Hvars & _).
  destruct (Hvars {| obj_state := ∅; merge_calls := [] |} tt ∅ ds None ∅
              eq_refl eq_refl eq_refl)
    as (_ & Hr & Hi & w & Hw & Hadd & Hd & He).
  split_and!; [exact Hr|exact Hi|].
  exists w. split_and!; [exact Hw|exact Hadd|exact Hd|exact He].
Defined.

Lemma reached_writer_is_sound_witness :
  (∀ w, writer (declared ds) = Some w → built true w) ∧
  (_initialized (declared ds) = true →
   ∃ w, writer (declared ds) = Some w ∧
        ∀ W, write_eager (declared ds) W =
             match finish_eager w (write_each (eager_tasks w) W) with
             | (r, w', W') => (r, set_writer (declared ds) w', W')
             end) ∧
  (∀ (args : unit) se W,
     _initialized (declared ds) = true →
     _initialized (write_metadata true (declared ds) args W).1.2 = true ∧
     _initialized (write_eager (declared ds) W).1.2 = true ∧
     _initialized (write_lazy (declared ds) se W).1.2 = true).
Proof.
  apply (reached_writer_is_sound true (declared ds)).
  apply (reached_metadata true (fresh ds) tt W0 (Ret tt) (declared ds) (W1 ds)).
  - apply (@reached_new store_model true ds (IcechunkStoreRef 0)). reflexivity.
  - reflexivity.
Defined.

Lemma merge_stores_merges_into_first_witness :
  merge_stores [0; 1; 2] W3 =
    (Ret 0,
     <[0 := {| obj_state := merge (merge {[("a", 0) := 1%Z]} {[("a", 1) := 2%Z]})
                                  {[("b", 0) := 3%Z]};
               merge_calls := [{[("a", 1) := 2%Z]}; {[("b", 0) := 3%Z]}] |}]> W3).
Proof.
  refine (proj2 (merge_stores_merges_into_first W3) 0 [1; 2]
            {| obj_state := {[("a", 0) := 1%Z]}; merge_calls := [] |}
            [{[("a", 1) := 2%Z]}; {[("b", 0) := 3%Z]}] _ _ _).
  - by apply (bool_decide_unpack _).
  - reflexivity.
  - repeat constructor.
Defined.

End MoreExamples.
